(** * genhooks: the hook code generator of pylib/tools/genhooks.py

    A shallow embedding of the generator (the [Hook] dataclass, its code
    emitters and the splice of the emitted blob into hooks.py), of the
    Python string primitives it relies on, of the reading and writing of
    hooks.py, and of the dispatch functions it emits: their text as a
    Python program, and what that program does when it runs. *)

From Stdlib Require Import String Ascii List Arith NArith Bool Lia.
From Stdlib Require Import Permutation Sorted.
Import ListNotations.

Open Scope list_scope.
Open Scope string_scope.

(** ** Python values used by the generator *)

Module Py.

(** The exceptions the generator script can die with. *)
Inductive exn : Type :=
| ValueError   (* tuple unpacking of the wrong number of values *)
| IndexError   (* list index out of range *)
| ReError.     (* the replacement template of re.sub is rejected *)

Inductive result (A : Type) : Type :=
| Ok (a : A)
| Raise (e : exn).
Arguments Ok {A} a.
Arguments Raise {A} e.

Definition bind {A B : Type} (m : result A) (k : A -> result B) : result B :=
  match m with
  | Ok a => k a
  | Raise e => Raise e
  end.

Definition is_ok {A : Type} (m : result A) : bool :=
  match m with Ok _ => true | Raise _ => false end.

(** Characters are code points below 256, one [ascii] each. *)
Definition chr (n : nat) : string := String (ascii_of_nat n) EmptyString.

Definition nl : string := chr 10.
Definition dquote : string := chr 34.
Definition comma : ascii := ascii_of_nat 44.
Definition colon : ascii := ascii_of_nat 58.
Definition backslash : ascii := ascii_of_nat 92.

(** [bool(s)] for a str: the empty string is falsy. *)
Definition truthy (s : string) : bool :=
  match s with
  | EmptyString => false
  | String _ _ => true
  end.

(** [bool(o)] for an Optional[str]: None and the empty string are falsy. *)
Definition truthy_opt (o : option string) : bool :=
  match o with
  | Some s => truthy s
  | None => false
  end.

(** [s.split(sep)] for a one-character separator: never returns the
    empty list, and keeps empty segments. *)
Fixpoint split (sep : ascii) (s : string) : list string :=
  match s with
  | EmptyString => [EmptyString]
  | String c s' =>
      if Ascii.eqb c sep then EmptyString :: split sep s'
      else match split sep s' with
           | seg :: segs => String c seg :: segs
           | [] => [String c EmptyString]
           end
  end.

(** [c.isspace()] on the code points below 256. *)
Definition isspace (c : ascii) : bool :=
  let n := nat_of_ascii c in
  (((9 <=? n) && (n <=? 13)) || ((28 <=? n) && (n <=? 32))
   || (n =? 133) || (n =? 160))%nat.

Fixpoint lstrip (s : string) : string :=
  match s with
  | EmptyString => EmptyString
  | String c s' => if isspace c then lstrip s' else s
  end.

Fixpoint rstrip (s : string) : string :=
  match s with
  | EmptyString => EmptyString
  | String c s' =>
      match rstrip s' with
      | EmptyString => if isspace c then EmptyString else String c EmptyString
      | r => String c r
      end
  end.

(** [s.strip()] *)
Definition strip (s : string) : string := rstrip (lstrip s).

(** [sep.join(parts)] *)
Fixpoint join (sep : string) (parts : list string) : string :=
  match parts with
  | [] => EmptyString
  | [p] => p
  | p :: ps => p ++ sep ++ join sep ps
  end.

(** [str(o)] as an f-string prints an Optional[str]. *)
Definition fmt_opt (o : option string) : string :=
  match o with
  | Some s => s
  | None => "None"
  end.

End Py.

Notation "x <- m ;; k" := (Py.bind m (fun x => k))
  (at level 61, m at next level, right associativity).

(** ** The Hook dataclass and its emitters *)

Record Hook : Type := mkHook {
  name : string;
  cb_args : string;
  return_type : option string;
  legacy_hook : option string
}.

Module Gen.
Import Py.

(** The body of the loop shared by [callable] and [arg_names]:
    [(name, type) = arg.split(":")] succeeds on exactly two parts. *)
Definition unpack2 (parts : list string) : result (string * string) :=
  match parts with
  | [a; b] => Ok (a, b)
  | _ => Raise ValueError
  end.

(** The loop of [callable]; [types] is the list built so far. *)
Fixpoint callable_loop (segs : list string) (types : list string)
  : result (list string) :=
  match segs with
  | [] => Ok types
  | arg :: rest =>
      if negb (truthy arg) then callable_loop rest types
      else
        nt <- unpack2 (split colon arg) ;;
        callable_loop rest (types ++ [strip (snd nt)])%list
  end.

Definition callable (h : Hook) : result string :=
  types <- callable_loop (split comma (cb_args h)) [] ;;
  let types_str := join ", " types in
  Ok ("Callable[[" ++ types_str ++ "], "
      ++ (if truthy_opt (return_type h) then fmt_opt (return_type h)
          else "None")
      ++ "]").

(** The loop of [arg_names]. *)
Fixpoint arg_names_loop (segs : list string) (names : list string)
  : result (list string) :=
  match segs with
  | [] => Ok names
  | arg :: rest =>
      if negb (truthy arg) then arg_names_loop rest names
      else
        nt <- unpack2 (split colon arg) ;;
        arg_names_loop rest (names ++ [strip (fst nt)])%list
  end.

Definition arg_names (h : Hook) : result (list string) :=
  arg_names_loop (split comma (cb_args h)) [].

Definition kind (h : Hook) : string :=
  match return_type h with
  | Some _ => "filter"
  | None => "hook"
  end.

Definition full_name (h : Hook) : string := name h ++ "_" ++ kind h.

Definition list_code (h : Hook) : result string :=
  c <- callable h ;;
  Ok (full_name h ++ ": List[" ++ c ++ "] = []" ++ nl).

Definition hook_fire_code (h : Hook) : result string :=
  arg_names <- arg_names h ;;
  let out :=
    "def run_" ++ full_name h ++ "(" ++ cb_args h ++ ") -> None:" ++ nl ++
    "    for hook in " ++ full_name h ++ ":" ++ nl ++
    "        try:" ++ nl ++
    "            hook(" ++ join ", " arg_names ++ ")" ++ nl ++
    "        except:" ++ nl ++
    "            # if the hook fails, remove it" ++ nl ++
    "            " ++ full_name h ++ ".remove(hook)" ++ nl ++
    "            raise" ++ nl in
  let out :=
    if truthy_opt (legacy_hook h) then
      let args :=
        join ", " ((dquote ++ fmt_opt (legacy_hook h) ++ dquote) :: arg_names) in
      out ++
      "    # legacy support" ++ nl ++
      "    runHook(" ++ args ++ ")" ++ nl
    else out in
  Ok (out ++ nl ++ nl).

(** [arg_names[0]] *)
Definition index0 (l : list string) : result string :=
  match l with
  | x :: _ => Ok x
  | [] => Raise IndexError
  end.

Definition filter_fire_code (h : Hook) : result string :=
  arg_names <- arg_names h ;;
  arg0 <- index0 arg_names ;;
  let out :=
    "def run_" ++ full_name h ++ "(" ++ cb_args h ++ ") -> "
      ++ fmt_opt (return_type h) ++ ":" ++ nl ++
    "    for filter in " ++ full_name h ++ ":" ++ nl ++
    "        try:" ++ nl ++
    "            " ++ arg0 ++ " = filter(" ++ join ", " arg_names ++ ")" ++ nl ++
    "        except:" ++ nl ++
    "            # if the hook fails, remove it" ++ nl ++
    "            " ++ full_name h ++ ".remove(filter)" ++ nl ++
    "            raise" ++ nl in
  let out :=
    if truthy_opt (legacy_hook h) then
      let args :=
        join ", " ((dquote ++ fmt_opt (legacy_hook h) ++ dquote) :: arg_names) in
      out ++
      "    # legacy support" ++ nl ++
      "    runFilter(" ++ args ++ ")" ++ nl
    else out in
  let out := out ++ "    return " ++ arg0 ++ nl in
  Ok (out ++ nl ++ nl).

Definition fire_code (h : Hook) : result string :=
  match return_type h with
  | Some _ => filter_fire_code h
  | None => hook_fire_code h
  end.

End Gen.

(** ** The script: sorting, code assembly and the splice into hooks.py *)

Module Script.
Import Py Gen.

(** [hooks.sort(key=attrgetter("name"))]: list.sort is stable and
    compares the keys as strings, code point by code point.  A stable
    sort has one possible result; it is computed here by insertion,
    each declaration going in front of the first one whose name is not
    smaller. *)
Fixpoint insert_by_name (h : Hook) (sorted : list Hook) : list Hook :=
  match sorted with
  | [] => [h]
  | x :: rest =>
      if String.leb (name h) (name x) then h :: sorted
      else x :: insert_by_name h rest
  end.

Definition sort_by_name (hooks : list Hook) : list Hook :=
  fold_right insert_by_name [] hooks.

(** [for hook in hooks: code += emit(hook)] *)
Fixpoint emit_all (emit : Hook -> result string) (hooks : list Hook)
         (code : string) : result string :=
  match hooks with
  | [] => Ok code
  | hook :: rest =>
      c <- emit hook ;;
      emit_all emit rest (code ++ c)
  end.

(** Lines 127 to 139: the blob [code]. *)
Definition gen_code (hooks : list Hook) : result string :=
  let hooks := sort_by_name hooks in
  code <- emit_all list_code hooks EmptyString ;;
  let code := code ++ nl ++ nl in
  emit_all fire_code hooks code.

Definition marker : string := "# @@AUTOGEN@@".

(** The tail of the pattern, [.*?# @@AUTOGEN@@\n] under [(?s)], tried
    at the start of [s]: the lazy wildcard takes as few characters
    (newlines included) as lets the closing literal match.  The result
    is the number of characters consumed. *)
Fixpoint lazy_until (close : string) (s : string) : option nat :=
  if String.prefix close s then Some (String.length close)
  else match s with
       | EmptyString => None
       | String _ s' => option_map S (lazy_until close s')
       end.

Fixpoint drop (n : nat) (s : string) : string :=
  match n, s with
  | S k, String _ s' => drop k s'
  | _, _ => s
  end.

(** The whole pattern tried at the start of [s]: length of the match. *)
Definition match_at (s : string) : option nat :=
  if String.prefix marker s then
    option_map (Nat.add (String.length marker))
               (lazy_until (marker ++ nl) (drop (String.length marker) s))
  else None.

(** [re.sub] scans the subject from left to right; where the pattern
    matches, the replacement is emitted and the scan resumes after the
    match; elsewhere the character is copied.  [skip] counts the
    characters of the current match still to be passed over.  [repl]
    maps the matched text to its replacement. *)
Fixpoint sub_scan (repl : string -> string) (skip : nat) (s : string)
  : string :=
  match s with
  | EmptyString => EmptyString  (* the pattern matches no empty text *)
  | String c s' =>
      match skip with
      | S k => sub_scan repl k s'
      | 0 => match match_at s with
             | Some len => repl (substring 0 len s) ++ sub_scan repl (len - 1) s'
             | None => String c (sub_scan repl 0 s')
             end
      end
  end.

Fixpoint has_backslash (s : string) : bool :=
  match s with
  | EmptyString => false
  | String c s' => Ascii.eqb c backslash || has_backslash s'
  end.

Section Splice.

(** The template compiler of the re module (sre_parse.parse_template)
    for a pattern without groups; it is not part of this repository
    and is consulted only for a replacement that contains a
    backslash.  [None] stands for a rejected template; otherwise the
    compiled template maps the matched text to its replacement. *)
Variable compile_template : string -> option (string -> string).

(** [re.sub("(?s)# @@AUTOGEN@@.*?# @@AUTOGEN@@\n", repl, orig)] *)
Definition re_sub (repl orig : string) : result string :=
  if has_backslash repl then
    match compile_template repl with
    | Some expand => Ok (sub_scan expand 0 orig)
    | None => Raise ReError
    end
  else Ok (sub_scan (fun _ => repl) 0 orig).

(** Line 142: [new]. *)
Definition splice (code orig : string) : result string :=
  re_sub (marker ++ nl ++ nl ++ code ++ marker ++ nl) orig.

(** The script from line 127 on, as a step on the text of hooks.py,
    that is on what [read] returns and what is handed to [encode]: the
    file is written once, at the end, and only if nothing raised
    before.  [Disk.run] below is the same step on the bytes of the
    file. *)
Definition main (hooks : list Hook) (hooks_py : string)
  : result unit * string :=
  match gen_code hooks with
  | Raise e => (Raise e, hooks_py)
  | Ok code =>
      match splice code hooks_py with
      | Raise e => (Raise e, hooks_py)
      | Ok new => (Ok tt, new)
      end
  end.

End Splice.

(** The declarations of the repository, lines 121 to 125. *)
Definition hooks : list Hook :=
  [ mkHook "leech" "card: Card" None (Some "leech");
    mkHook "odue_invalid" EmptyString None None;
    mkHook "mod_schema" "proceed: bool" (Some "bool") None ].

End Script.

(** ** The script on the file hooks.py

    [open(hooks_py).read()] opens the file in text mode: the bytes are
    decoded with the codec of the locale, and "\r\n" and "\r" are read
    as "\n".  [open(hooks_py, "wb").write(new.encode("utf8"))] writes
    bytes. *)

Module Disk.
Import Py Gen Script.

Definition cr : ascii := ascii_of_nat 13.
Definition lf : ascii := ascii_of_nat 10.

(** The newline translation of text mode on reading, [newline=None]. *)
Fixpoint universal_newlines (s : string) : string :=
  match s with
  | EmptyString => EmptyString
  | String c s' =>
      if Ascii.eqb c cr then
        String lf
          match s' with
          | EmptyString => EmptyString
          | String d s'' =>
              if Ascii.eqb d lf then universal_newlines s''
              else universal_newlines s'
          end
      else String c (universal_newlines s')
  end.

(** [s.encode("utf8")] on the code points below 256: one byte below
    128, two bytes from there on. *)
Definition utf8_char (c : ascii) : list Byte.byte :=
  let n := nat_of_ascii c in
  if (n <? 128)%nat then [byte_of_ascii c]
  else [byte_of_ascii (ascii_of_nat (192 + n / 64));
        byte_of_ascii (ascii_of_nat (128 + n mod 64))].

Fixpoint utf8 (s : string) : list Byte.byte :=
  match s with
  | EmptyString => []
  | String c s' => (utf8_char c ++ utf8 s')%list
  end.

(** What decoding the bytes of a file gives: a text, a
    UnicodeDecodeError, or a text with a character from code point 256
    on, which the strings of this development do not hold. *)
Inductive decoded : Type :=
| Text (s : string)
| Undecodable
| Beyond.

(** One codec a locale can have: ISO 8859-1, byte n is code point n. *)
Definition latin1 (content : list Byte.byte) : decoded :=
  Text (string_of_list_ascii (map ascii_of_byte content)).

(** How a run of the script ends. *)
Inductive ending : Type :=
| Updated              (* hooks.py written *)
| Died (e : exn)       (* an exception of the generator or of re.sub *)
| DiedDecoding.        (* UnicodeDecodeError while reading hooks.py *)

Section Run.

(** The codec of the locale, which [open] takes in text mode when
    given no encoding; it is not part of this repository. *)
Variable decode : list Byte.byte -> decoded.

Variable compile_template : string -> option (string -> string).

(** The script from line 127 on, as a step on the bytes of hooks.py:
    the blob is generated first, then the file is read, and it is
    written once, at the end, only if nothing raised before.  [None]:
    the text of the file is beyond what the strings here hold. *)
Definition run (hooks : list Hook) (hooks_py : list Byte.byte)
  : option (ending * list Byte.byte) :=
  match gen_code hooks with
  | Raise e => Some (Died e, hooks_py)
  | Ok code =>
      match decode hooks_py with
      | Beyond => None
      | Undecodable => Some (DiedDecoding, hooks_py)
      | Text raw =>
          match splice compile_template code (universal_newlines raw) with
          | Raise e => Some (Died e, hooks_py)
          | Ok new => Some (Updated, utf8 new)
          end
      end
  end.

End Run.

End Disk.

(** ** The text of the dispatch functions as a Python program

    [hook_fire_code] and [filter_fire_code] write Python text.  The
    statements they write are of a few forms; this module has these
    forms as syntax, their printing as text, and the two programs the
    emitters write, so that the emitted text is the printed program
    (shown below, with the properties).  It also says for which
    programs Python reads the printed text as that program. *)

Module Emitted.
Import Py Gen.

Inductive atom : Type :=
| Name (x : string)            (* x *)
| Str (s : string).            (* the characters of s between two quotes *)

Inductive expr : Type :=
| Call (f : string) (args : list atom)   (* f(a, b) *)
| Remove (l x : string).                 (* l.remove(x) *)

Inductive simple : Type :=
| Expr (e : expr)                        (* e *)
| Assign (x : string) (e : expr)         (* x = e *)
| Reraise                                (* raise *)
| Return (x : string)                    (* return x *)
| Comment (text : string).               (* # text *)

(** [ForTry v l body handler] is
    [for v in l:] / [try:] / body / [except:] / handler. *)
Inductive stmt : Type :=
| Simple (s : simple)
| ForTry (v l : string) (body handler : list simple).

(** [def d_name(d_params) -> d_returns:] and the body; the parameter
    list and the return annotation are kept as the text they are
    written with. *)
Record def : Type := mkDef {
  d_name : string;
  d_params : string;
  d_returns : string;
  d_body : list stmt
}.









(** The except clause of both emitters. *)
Definition evict (l v : string) : list simple :=
  [ Comment "if the hook fails, remove it"; Expr (Remove l v); Reraise ].

(** The lines behind [if self.legacy_hook:]. *)
Definition legacy_support (h : Hook) (runner : string) (names : list string)
  : list stmt :=
  if truthy_opt (legacy_hook h) then
    [ Simple (Comment "legacy support");
      Simple (Expr (Call runner
                         (Str (fmt_opt (legacy_hook h)) :: map Name names))) ]
  else [].

Definition hook_def (h : Hook) (names : list string) : def :=
  mkDef ("run_" ++ full_name h) (cb_args h) "None"
        (ForTry "hook" (full_name h)
                [ Expr (Call "hook" (map Name names)) ]
                (evict (full_name h) "hook")
         :: legacy_support h "runHook" names).

Definition filter_def (h : Hook) (names : list string) (arg0 : string) : def :=
  mkDef ("run_" ++ full_name h) (cb_args h) (fmt_opt (return_type h))
        (ForTry "filter" (full_name h)
                [ Assign arg0 (Call "filter" (map Name names)) ]
                (evict (full_name h) "filter")
         :: legacy_support h "runFilter" names ++ [ Simple (Return arg0) ])%list.



(** *** Which texts are read as these programs

    The emitters paste the name, callbackArgs, the return type and the
    alias into the text as they are.  [accepted d] holds when the
    pieces of [d] are such that Python reads the printed text as [d]:
    the names are identifiers, the header is a list of parameters
    [name: annotation] with distinct names, the alias between its
    quotes is a string literal with that content.  The test is on the
    safe side: it knows ASCII identifiers, annotations that are dotted
    names with subscripts, and blanks as the only white space, and
    refuses every other text, valid Python or not. *)

Fixpoint all_chars (p : ascii -> bool) (s : string) : bool :=
  match s with
  | EmptyString => true
  | String c s' => p c && all_chars p s'
  end.

Definition is_letter (c : ascii) : bool :=
  let n := nat_of_ascii c in
  (((65 <=? n) && (n <=? 90)) || ((97 <=? n) && (n <=? 122)) || (n =? 95))%nat.

Definition is_digit (c : ascii) : bool :=
  let n := nat_of_ascii c in ((48 <=? n) && (n <=? 57))%nat.

(** The keywords of Python 3, and the one name that cannot be
    assigned. *)
Definition keywords : list string :=
  [ "False"; "None"; "True"; "and"; "as"; "assert"; "async"; "await";
    "break"; "class"; "continue"; "def"; "del"; "elif"; "else"; "except";
    "finally"; "for"; "from"; "global"; "if"; "import"; "in"; "is";
    "lambda"; "nonlocal"; "not"; "or"; "pass"; "raise"; "return"; "try";
    "while"; "with"; "yield"; "__debug__" ].

Definition mem_string (x : string) (l : list string) : bool :=
  existsb (String.eqb x) l.

Definition identifier (s : string) : bool :=
  match s with
  | EmptyString => false
  | String c s' =>
      is_letter c && all_chars (fun d => is_letter d || is_digit d) s'
      && negb (mem_string s keywords)
  end.

(** A character that stands for itself between double quotes: no
    quote, no backslash, no line break, no NUL. *)
Definition plain_char (c : ascii) : bool :=
  let n := nat_of_ascii c in
  negb ((n =? 0) || (n =? 10) || (n =? 13) || (n =? 34) || (n =? 92))%nat.

Definition plain_literal (s : string) : bool := all_chars plain_char s.

(** The text of a comment: no line break. *)
Definition one_line (s : string) : bool :=
  all_chars (fun c => let n := nat_of_ascii c in
                      negb ((n =? 0) || (n =? 10) || (n =? 13))%nat) s.

Definition dot : ascii := ascii_of_nat 46.

Definition dotted_name (s : string) : bool :=
  forallb identifier (split dot s).

Fixpoint index_of (c : ascii) (s : string) : option nat :=
  match s with
  | EmptyString => None
  | String d s' => if Ascii.eqb d c then Some 0
                   else option_map S (index_of c s')
  end.

(** An annotation this model knows: a dotted name, None, or a dotted
    name with one of these in square brackets. *)
Fixpoint annotation_upto (fuel : nat) (s : string) : bool :=
  dotted_name s || String.eqb s "None"
  || match fuel with
     | 0 => false
     | S k =>
         match index_of "[" s with
         | Some i =>
             dotted_name (substring 0 i s)
             && String.eqb (substring (String.length s - 1) 1 s) "]"
             && annotation_upto k (substring (S i) (String.length s - i - 2) s)
         | None => false
         end
     end.

Definition annotation (s : string) : bool :=
  annotation_upto (String.length s) s.

(** [word], with blanks around it and no other white space. *)
Definition spaced (word : string -> bool) (s : string) : bool :=
  word (strip s)
  && all_chars (fun c => negb (isspace c) || Ascii.eqb c " ") s.

(** The parameters of a header, each written [name: annotation]:
    their names, as Python reads them. *)
Fixpoint params_loop (segs : list string) : option (list string) :=
  match segs with
  | [] => Some []
  | seg :: rest =>
      match split colon seg with
      | [n; t] =>
          if spaced identifier n && spaced annotation t
          then option_map (cons (strip n)) (params_loop rest)
          else None
      | _ => None
      end
  end.

Fixpoint distinct (l : list string) : bool :=
  match l with
  | [] => true
  | x :: l' => negb (mem_string x l') && distinct l'
  end.

Definition params_of (text : string) : option (list string) :=
  match text with
  | EmptyString => Some []
  | _ => match params_loop (split comma text) with
         | Some ps => if distinct ps then Some ps else None
         | None => None
         end
  end.

Definition accepted_atom (a : atom) : bool :=
  match a with
  | Name x => identifier x
  | Str s => plain_literal s
  end.

Definition accepted_expr (e : expr) : bool :=
  match e with
  | Call f args => identifier f && forallb accepted_atom args
  | Remove l x => identifier l && identifier x
  end.

Definition accepted_simple (s : simple) : bool :=
  match s with
  | Expr e => accepted_expr e
  | Assign x e => identifier x && accepted_expr e
  | Reraise => true
  | Return x => identifier x
  | Comment text => one_line text
  end.

Definition accepted_stmt (s : stmt) : bool :=
  match s with
  | Simple s => accepted_simple s
  | ForTry v l body handler =>
      identifier v && identifier l
      && forallb accepted_simple body && forallb accepted_simple handler
  end.

(** Python reads [print_def d] as the program [d]. *)
Definition accepted (d : def) : bool :=
  identifier (d_name d)
  && match params_of (d_params d) with Some _ => true | None => false end
  && spaced annotation (d_returns d)
  && forallb accepted_stmt (d_body d).

End Emitted.

(** ** What the emitted dispatch functions do when they run

    The semantics of Python for the programs of [Emitted].  A value is
    None, a string or another object.  The store holds the list
    objects by address, what the globals of the module are bound to,
    and the rest of the program state.  A registration list is a list
    object that a global name is bound to.  Calling a value may do
    anything to the store: a callable can register and unregister
    callables, itself included, and rebind globals.  A function has a
    frame of local variables, its parameters and the names it assigns;
    every other name is a global.  The dispatch function is called on
    positional arguments. *)

Module Interp.
Import Py Emitted.

Section Runtime.

(** The objects of the running program other than None and the
    strings: callables, arguments, results. *)
Variable Obj : Type.

(** Python's [==] on them, as [list.remove] uses it. *)
Variable obj_eq_dec : forall a b : Obj, {a = b} + {a <> b}.

Inductive val : Type :=
| VNone
| VStr (s : string)
| VObj (o : Obj).

Definition val_eq_dec (a b : val) : {a = b} + {a <> b}.
Proof.
  decide equality; auto using string_dec.
Defined.

(** The rest of the program state, and the exceptions. *)
Variables (U E : Type).

(** TypeError of a call with the wrong number of arguments, ValueError
    of [list.remove], NameError and UnboundLocalError of a name without
    a value. *)
Variables (type_error value_error name_error unbound_local_error : E).

Inductive outcome (A : Type) : Type :=
| Returns (a : A)
| Raises (e : E).
Arguments Returns {A} a.
Arguments Raises {A} e.

(** What a global name of the module is bound to: a list object, by
    its address, or another value. *)
Inductive binding : Type :=
| BList (a : nat)
| BVal (v : val).

(** The store: the list objects, the globals of the module (with the
    builtins behind them), and the rest. *)
Record store : Type := mkStore {
  lists : nat -> list val;
  globals : string -> option binding;
  rest : U
}.

(** Calling a value on positional arguments: it returns or raises, and
    may change the store on the way, the registration lists and the
    globals included. *)
Variable invoke : val -> list val -> store -> outcome val * store.

(** The calls a dispatch function makes. *)
Inductive event : Type :=
| Called (callee : val) (args : list val).

(** A frame of a running function. *)
Record machine : Type := mkMachine {
  vars : list (string * val);
  mem : store;
  trace : list event
}.

Inductive signal : Type :=
| Normal
| Raised (e : E)
| Returned (v : val).

Fixpoint lookup (x : string) (en : list (string * val)) : option val :=
  match en with
  | [] => None
  | (y, v) :: en' => if String.eqb x y then Some v else lookup x en'
  end.

Definition set_var (x : string) (v : val) (m : machine) : machine :=
  mkMachine ((x, v) :: vars m) (mem m) (trace m).

Definition set_list (a : nat) (l : list val) (st : store) : store :=
  mkStore (fun b => if Nat.eqb b a then l else lists st b)
          (globals st) (rest st).

(** [l.remove(x)]: drops the first item equal to [x]; [None] when
    there is none. *)
Fixpoint remove_first (x : val) (l : list val) : option (list val) :=
  match l with
  | [] => None
  | y :: l' =>
      if val_eq_dec y x then Some l'
      else option_map (cons y) (remove_first x l')
  end.

(** The value of a name; [locals] are the names local to the function
    (its parameters and the names it assigns).  [None]: the name is
    bound to a list object, which this model does not pass around. *)
Definition read (locals : list string) (m : machine) (x : string)
  : option (outcome val) :=
  if mem_string x locals then
    match lookup x (vars m) with
    | Some v => Some (Returns v)
    | None => Some (Raises unbound_local_error)
    end
  else
    match globals (mem m) x with
    | Some (BVal v) => Some (Returns v)
    | Some (BList _) => None
    | None => Some (Raises name_error)
    end.

(** The list object a name denotes.  [None]: the name is bound to a
    value that is not one of the list objects of the store. *)
Definition read_list (locals : list string) (m : machine) (x : string)
  : option (outcome nat) :=
  if mem_string x locals then
    match lookup x (vars m) with
    | Some _ => None
    | None => Some (Raises unbound_local_error)
    end
  else
    match globals (mem m) x with
    | Some (BList a) => Some (Returns a)
    | Some (BVal _) => None
    | None => Some (Raises name_error)
    end.

Definition eval_atom (locals : list string) (m : machine) (a : atom)
  : option (outcome val) :=
  match a with
  | Name x => read locals m x
  | Str s => Some (Returns (VStr s))
  end.

(** The arguments of a call, from left to right. *)
Fixpoint eval_atoms (locals : list string) (m : machine) (l : list atom)
  : option (outcome (list val)) :=
  match l with
  | [] => Some (Returns [])
  | a :: l' =>
      match eval_atom locals m a with
      | None => None
      | Some (Raises e) => Some (Raises e)
      | Some (Returns v) =>
          match eval_atoms locals m l' with
          | None => None
          | Some (Raises e) => Some (Raises e)
          | Some (Returns vs) => Some (Returns (v :: vs))
          end
      end
  end.

Definition exec_expr (locals : list string) (m : machine) (e : expr)
  : option (outcome val * machine) :=
  match e with
  | Call f args =>
      match read locals m f with
      | None => None
      | Some (Raises e) => Some (Raises e, m)
      | Some (Returns callee) =>
          match eval_atoms locals m args with
          | None => None
          | Some (Raises e) => Some (Raises e, m)
          | Some (Returns vs) =>
              let (r, st) := invoke callee vs (mem m) in
              Some (r, mkMachine (vars m) st (trace m ++ [Called callee vs]))
          end
      end
  | Remove l x =>
      match read_list locals m l with
      | None => None
      | Some (Raises e) => Some (Raises e, m)
      | Some (Returns a) =>
          match read locals m x with
          | None => None
          | Some (Raises e) => Some (Raises e, m)
          | Some (Returns v) =>
              match remove_first v (lists (mem m) a) with
              | Some l' =>
                  Some (Returns VNone,
                        mkMachine (vars m) (set_list a l' (mem m)) (trace m))
              | None => Some (Raises value_error, m)
              end
          end
      end
  end.

(** [handling] is the exception of the except clause the statement
    stands in, if it stands in one.  [None] for a bare raise outside
    of one. *)
Definition exec_simple (locals : list string) (handling : option E)
           (m : machine) (s : simple) : option (signal * machine) :=
  match s with
  | Expr e =>
      match exec_expr locals m e with
      | None => None
      | Some (Returns _, m') => Some (Normal, m')
      | Some (Raises e, m') => Some (Raised e, m')
      end
  | Assign x e =>
      match exec_expr locals m e with
      | None => None
      | Some (Returns v, m') => Some (Normal, set_var x v m')
      | Some (Raises e, m') => Some (Raised e, m')
      end
  | Reraise =>
      match handling with
      | Some e => Some (Raised e, m)
      | None => None
      end
  | Return x =>
      match read locals m x with
      | None => None
      | Some (Returns v) => Some (Returned v, m)
      | Some (Raises e) => Some (Raised e, m)
      end
  | Comment _ => Some (Normal, m)
  end.

Fixpoint exec_block (locals : list string) (handling : option E)
         (m : machine) (b : list simple) : option (signal * machine) :=
  match b with
  | [] => Some (Normal, m)
  | s :: b' =>
      match exec_simple locals handling m s with
      | Some (Normal, m') => exec_block locals handling m' b'
      | other => other
      end
  end.

(** [for v in l: try: body except: handler], from the entry at index
    [i] on.  The iterator of a list holds the list object, at address
    [a], and an index: each round reads the entry the list has at that
    index at that moment, and the loop ends when there is none.
    [fuel] bounds the number of rounds. *)
Fixpoint for_try (fuel : nat) (locals : list string) (v : string) (a : nat)
         (body handler : list simple) (i : nat) (m : machine)
  : option (signal * machine) :=
  match fuel with
  | 0 => None
  | S fuel' =>
      match nth_error (lists (mem m) a) i with
      | None => Some (Normal, m)
      | Some x =>
          match exec_block locals None (set_var v x m) body with
          | None => None
          | Some (Normal, m1) =>
              for_try fuel' locals v a body handler (S i) m1
          | Some (Returned r, m1) => Some (Returned r, m1)
          | Some (Raised e, m1) =>
              match exec_block locals (Some e) m1 handler with
              | Some (Normal, m2) =>
                  for_try fuel' locals v a body handler (S i) m2
              | other => other
              end
          end
      end
  end.

Definition exec_stmt (fuel : nat) (locals : list string) (m : machine)
           (s : stmt) : option (signal * machine) :=
  match s with
  | Simple s => exec_simple locals None m s
  | ForTry v l body handler =>
      match read_list locals m l with
      | None => None
      | Some (Raises e) => Some (Raised e, m)
      | Some (Returns a) => for_try fuel locals v a body handler 0 m
      end
  end.

Fixpoint exec_body (fuel : nat) (locals : list string) (m : machine)
         (b : list stmt) : option (signal * machine) :=
  match b with
  | [] => Some (Normal, m)
  | s :: b' =>
      match exec_stmt fuel locals m s with
      | Some (Normal, m') => exec_body fuel locals m' b'
      | other => other
      end
  end.

(** The names a function body assigns. *)
Definition assigned_simple (s : simple) : list string :=
  match s with
  | Assign x _ => [x]
  | _ => []
  end.

Definition assigned (s : stmt) : list string :=
  match s with
  | Simple s => assigned_simple s
  | ForTry v _ body handler =>
      v :: flat_map assigned_simple body ++ flat_map assigned_simple handler
  end.

(** A call of the function [d] on positional arguments: the outcome,
    the store it leaves and the calls it made.  [None]: the text of
    [d] is outside of what this model reads, the run leaves the
    model, or it needs more than [fuel] rounds of a loop. *)
Definition call_def (fuel : nat) (d : def) (args : list val) (st : store)
  : option (outcome val * store * list event) :=
  if accepted d then
    match params_of (d_params d) with
    | None => None
    | Some params =>
        if Nat.eqb (List.length args) (List.length params) then
          match exec_body fuel (params ++ flat_map assigned (d_body d))
                          (mkMachine (combine params args) st [])
                          (d_body d) with
          | None => None
          | Some (Normal, m) => Some (Returns VNone, mem m, trace m)
          | Some (Returned v, m) => Some (Returns v, mem m, trace m)
          | Some (Raised e, m) => Some (Raises e, mem m, trace m)
          end
        else Some (Raises type_error, st, [])
    end
  else None.

End Runtime.

Arguments VNone {Obj}.
Arguments VStr {Obj} s.
Arguments VObj {Obj} o.
Arguments Returns {E A} a.
Arguments Raises {E A} e.
Arguments BList {Obj} a.
Arguments BVal {Obj} v.
Arguments mkStore {Obj U} lists globals rest.
Arguments lists {Obj U} s a.
Arguments globals {Obj U} s x.
Arguments rest {Obj U} s.
Arguments Called {Obj} callee args.
Arguments mkMachine {Obj U} vars mem trace.
Arguments vars {Obj U} m.
Arguments mem {Obj U} m.
Arguments trace {Obj U} m.
Arguments Normal {Obj E}.
Arguments Raised {Obj E} e.
Arguments Returned {Obj E} v.
Arguments lookup {Obj} x en.
Arguments set_var {Obj U} x v m.
Arguments set_list {Obj U} a l st.
Arguments val_eq_dec {Obj} obj_eq_dec a b.
Arguments remove_first {Obj} obj_eq_dec x l.
Arguments read {Obj U E} name_error unbound_local_error locals m x.
Arguments read_list {Obj U E} name_error unbound_local_error locals m x.
Arguments eval_atom {Obj U E} name_error unbound_local_error locals m a.
Arguments eval_atoms {Obj U E} name_error unbound_local_error locals m l.
Arguments exec_expr {Obj} obj_eq_dec {U E} value_error name_error
          unbound_local_error invoke locals m e.
Arguments exec_simple {Obj} obj_eq_dec {U E} value_error name_error
          unbound_local_error invoke locals handling m s.
Arguments exec_block {Obj} obj_eq_dec {U E} value_error name_error
          unbound_local_error invoke locals handling m b.
Arguments for_try {Obj} obj_eq_dec {U E} value_error name_error
          unbound_local_error invoke fuel locals v a body handler i m.
Arguments exec_stmt {Obj} obj_eq_dec {U E} value_error name_error
          unbound_local_error invoke fuel locals m s.
Arguments exec_body {Obj} obj_eq_dec {U E} value_error name_error
          unbound_local_error invoke fuel locals m b.
Arguments call_def {Obj} obj_eq_dec {U E} type_error value_error name_error
          unbound_local_error invoke fuel d args st.

End Interp.

(** ** The courses of a dispatch the specification speaks of *)

Module Course.
Import Py Emitted Interp.

Section Courses.

Context {Obj U E : Type}.
Variable invoke : val Obj -> list (val Obj) -> store Obj U
                  -> outcome E (val Obj) * store Obj U.





End Courses.

End Course.

(** ** A runtime to run the dispatch functions on

    Objects are numbers, and so are exceptions.  Called, object 0
    raises exception 7; object 1 unregisters itself from the list at
    address 0 and raises 7; object 2 unregisters itself and returns
    its first argument; objects 100 and 101 are the legacy functions
    runHook and runFilter; every other object n returns its first
    argument plus n.  None and strings are not callable.  The rest of
    the state counts the calls. *)

Module Demo.
Import Interp.

Definition value : Type := val nat.
Definition state : Type := store nat nat.

Definition type_error : nat := 90.
Definition value_error : nat := 91.
Definition name_error : nat := 92.
Definition unbound_local_error : nat := 93.

Definition number (args : list value) : nat :=
  match args with
  | VObj m :: _ => m
  | _ => 0
  end.

Definition unregister (v : value) (st : state) : state :=
  match remove_first Nat.eq_dec v (lists st 0) with
  | Some l => set_list 0 l st
  | None => st
  end.

Definition tick (st : state) : state :=
  mkStore (lists st) (globals st) (S (rest st)).

Definition invoke (callee : value) (args : list value) (st : state)
  : outcome nat value * state :=
  match callee with
  | VObj 0 => (Raises 7, tick st)
  | VObj 1 => (Raises 7, tick (unregister callee st))
  | VObj 2 => (Returns (VObj (number args)), tick (unregister callee st))
  | VObj 100 => (Returns VNone, tick st)
  | VObj 101 => (Returns (VObj 0), tick st)
  | VObj n => (Returns (VObj (n + number args)), tick st)
  | _ => (Raises type_error, st)
  end.


Definition call_def : nat -> Emitted.def -> list value -> state
                      -> option (outcome nat value * state * list (event nat)) :=
  Interp.call_def Nat.eq_dec type_error value_error name_error
                  unbound_local_error invoke.



End Demo.

(** ** Vocabulary of the specification *)

Module Spec.
Import Py.

(** How often the character [c] occurs in [s]. *)
Fixpoint count_char (c : ascii) (s : string) : nat :=
  match s with
  | EmptyString => 0
  | String d s' => (if Ascii.eqb d c then 1 else 0) + count_char c s'
  end.

(** At how many positions of [s] the text [needle] starts. *)
Fixpoint occurrences (needle s : string) : nat :=
  (if String.prefix needle s then 1 else 0)
  + match s with
    | EmptyString => 0
    | String _ s' => occurrences needle s'
    end.

(** A [name:type] pair written out as a segment of callbackArgs. *)
Definition segment_of (p : string * string) : string :=
  fst p ++ String colon (snd p).

(** callbackArgs encodes [pairs]: its non-empty comma-separated
    segments are, in order, the pairs written [name:type], the colon
    being the only one of the segment. *)
Definition signature (cb_args : string) (pairs : list (string * string))
  : Prop :=
  filter truthy (split comma cb_args) = map segment_of pairs
  /\ Forall (fun p => count_char colon (fst p) = 0
                      /\ count_char colon (snd p) = 0) pairs.

Definition names_of (pairs : list (string * string)) : list string :=
  map (fun p => strip (fst p)) pairs.

Definition types_of (pairs : list (string * string)) : list string :=
  map (fun p => strip (snd p)) pairs.

(** The callable type as the specification writes it. *)
Definition callable_text (types : list string) (ret : option string)
  : string :=
  "Callable[[" ++ join ", " types ++ "], "
  ++ match ret with Some r => r | None => "None" end ++ "]".

(** A return type that is present and not the empty string. *)
Definition nonempty (ret : option string) : option string :=
  match ret with
  | Some (String _ _ as r) => Some r
  | _ => None
  end.

(** A segment is well formed when it holds exactly one colon. *)
Definition well_formed (seg : string) : Prop := count_char colon seg = 1.

(** The closing literal of the pattern: the marker and a newline. *)
Definition closing : string := Script.marker ++ nl.

(** Ascending lexical order of the names. *)
Definition name_le (a b : Hook) : Prop :=
  String.leb (name a) (name b) = true.

(** What one pass of the loops of [callable] and [arg_names] makes of
    a segment. *)
Definition parse_segment (seg : string) : result (string * string) :=
  Gen.unpack2 (split colon seg).

(** The pattern of the splice matches at no position of [s]: [s] holds
    no marker pair. *)
Fixpoint matches_nowhere (s : string) : bool :=
  match Script.match_at s with
  | Some _ => false
  | None => match s with
            | EmptyString => true
            | String _ s' => matches_nowhere s'
            end
  end.

(** The bytes of a file that holds the ASCII text [s]. *)
Definition ascii_bytes (s : string) : list Byte.byte :=
  map byte_of_ascii (list_ascii_of_string s).

End Spec.

(** ** Further vocabulary, for the properties of the code beyond the
    specification *)

Module Shape.
Import Py.

(** A declaration the script can emit both fragments for: its signature
    parses, and a filter has a first argument. *)
Definition generable (h : Hook) : Prop :=
  exists names,
    Gen.arg_names h = Ok names /\ (return_type h <> None -> names <> []).

(** The declarations of [hooks] named [k], in their order. *)
Definition named (k : string) (hooks : list Hook) : list Hook :=
  filter (fun h => String.eqb (name h) k) hooks.

Definition starts_with_space (s : string) : bool :=
  match s with
  | EmptyString => false
  | String c _ => isspace c
  end.

Fixpoint ends_with_space (s : string) : bool :=
  match s with
  | EmptyString => false
  | String c EmptyString => isspace c
  | String _ s' => ends_with_space s'
  end.

(** A clean token: no comma, no colon, no white space at either end. *)
Definition clean_token (s : string) : Prop :=
  Spec.count_char comma s = 0
  /\ Spec.count_char colon s = 0
  /\ starts_with_space s = false
  /\ ends_with_space s = false.

(** The same declaration with another callbackArgs. *)
Definition with_cb_args (h : Hook) (cb : string) : Hook :=
  mkHook (name h) cb (return_type h) (legacy_hook h).

End Shape.

(** * Properties *)

(** ** Python string primitives *)

Section StringFacts.
Import Py Spec.

Lemma append_nil_r (s : string) : s ++ EmptyString = s.
Proof. induction s; simpl; congruence. Qed.

Lemma append_assoc (a b c : string) : (a ++ b) ++ c = a ++ b ++ c.
Proof. induction a; simpl; congruence. Qed.

Lemma length_append (a b : string) :
  String.length (a ++ b) = String.length a + String.length b.
Proof. induction a; simpl; congruence. Qed.

Lemma split_not_nil (c : ascii) (s : string) : split c s <> [].
Proof.
  destruct s as [|d s]; simpl; [discriminate|].
  destruct (Ascii.eqb d c); [discriminate|].
  destruct (split c s); discriminate.
Qed.

Lemma split_length (c : ascii) (s : string) :
  List.length (split c s) = S (count_char c s).
Proof.
  induction s as [|d s IH]; simpl; [reflexivity|].
  destruct (Ascii.eqb d c); simpl; [now rewrite IH|].
  destruct (split c s) eqn:E; simpl in *; [discriminate|assumption].
Qed.

Lemma split_no_sep (c : ascii) (s : string) :
  count_char c s = 0 -> split c s = [s].
Proof.
  induction s as [|d s IH]; simpl; [reflexivity|].
  destruct (Ascii.eqb d c); simpl; [discriminate|].
  intros H. now rewrite (IH H).
Qed.

Lemma split_app_sep (c : ascii) (a b : string) :
  count_char c a = 0 -> split c (a ++ String c b) = a :: split c b.
Proof.
  induction a as [|d a IH]; simpl.
  - now rewrite Ascii.eqb_refl.
  - destruct (Ascii.eqb d c); simpl; [discriminate|].
    intros H. now rewrite (IH H).
Qed.

Lemma split_pair (c : ascii) (a b : string) :
  count_char c a = 0 -> count_char c b = 0 ->
  split c (a ++ String c b) = [a; b].
Proof.
  intros Ha Hb. now rewrite (split_app_sep _ _ _ Ha), (split_no_sep _ _ Hb).
Qed.

Lemma truthy_false (s : string) : truthy s = false <-> s = EmptyString.
Proof. destruct s; simpl; split; congruence. Qed.

Lemma truthy_true (s : string) : truthy s = true <-> s <> EmptyString.
Proof. destruct s; simpl; split; congruence. Qed.

Lemma segment_of_truthy (p : string * string) : truthy (segment_of p) = true.
Proof. destruct p as [[|c n] t]; reflexivity. Qed.

End StringFacts.

(** ** Signature parsing *)

Section Parsing.
Import Py Gen Spec.

Lemma parse_segment_ok (seg : string) :
  well_formed seg <-> exists nt, parse_segment seg = Ok nt.
Proof.
  unfold well_formed, parse_segment.
  pose proof (split_length colon seg) as L.
  destruct (split colon seg) as [|a [|b [|c l]]]; simpl in *; split;
    try (intros [nt H]; discriminate); try lia; intros H.
  now exists (a, b).
Qed.

Lemma parse_segment_err (seg : string) (e : exn) :
  parse_segment seg = Raise e -> e = ValueError.
Proof.
  unfold parse_segment.
  destruct (split colon seg) as [|a [|b [|c l]]]; simpl; congruence.
Qed.

Lemma parse_segment_of (p : string * string) :
  count_char colon (fst p) = 0 -> count_char colon (snd p) = 0 ->
  parse_segment (segment_of p) = Ok p.
Proof.
  destruct p as [n t]; simpl. intros Hn Ht.
  unfold parse_segment, segment_of; simpl.
  now rewrite (split_pair _ _ _ Hn Ht).
Qed.

(** Both loops walk the segments alike; they differ in the component
    they keep. *)
Lemma arg_names_loop_signature (segs : list string) :
  forall pairs acc,
    filter truthy segs = map segment_of pairs ->
    Forall (fun p => count_char colon (fst p) = 0
                     /\ count_char colon (snd p) = 0) pairs ->
    arg_names_loop segs acc = Ok (acc ++ names_of pairs)%list.
Proof.
  induction segs as [|seg segs IH]; intros pairs acc Hf Hp; simpl in *.
  - destruct pairs; [|discriminate]. simpl. now rewrite app_nil_r.
  - destruct (truthy seg) eqn:T; simpl in *.
    + destruct pairs as [|p pairs]; [discriminate|].
      simpl in Hf. injection Hf as Hseg Hrest. subst seg.
      inversion Hp as [|? ? [Hn Ht] Hp']; subst.
      fold (parse_segment (segment_of p)).
      rewrite (parse_segment_of _ Hn Ht); simpl.
      rewrite (IH pairs _ Hrest Hp'). now rewrite <- app_assoc.
    + now apply IH.
Qed.

Lemma callable_loop_signature (segs : list string) :
  forall pairs acc,
    filter truthy segs = map segment_of pairs ->
    Forall (fun p => count_char colon (fst p) = 0
                     /\ count_char colon (snd p) = 0) pairs ->
    callable_loop segs acc = Ok (acc ++ types_of pairs)%list.
Proof.
  induction segs as [|seg segs IH]; intros pairs acc Hf Hp; simpl in *.
  - destruct pairs; [|discriminate]. simpl. now rewrite app_nil_r.
  - destruct (truthy seg) eqn:T; simpl in *.
    + destruct pairs as [|p pairs]; [discriminate|].
      simpl in Hf. injection Hf as Hseg Hrest. subst seg.
      inversion Hp as [|? ? [Hn Ht] Hp']; subst.
      fold (parse_segment (segment_of p)).
      rewrite (parse_segment_of _ Hn Ht); simpl.
      rewrite (IH pairs _ Hrest Hp'). now rewrite <- app_assoc.
    + now apply IH.
Qed.

(** The loops succeed exactly when every non-empty segment holds one
    colon, and fail with ValueError only. *)
Lemma arg_names_loop_ok (segs : list string) :
  forall acc,
    (forall seg, In seg segs -> seg <> EmptyString -> well_formed seg)
    <-> exists names, arg_names_loop segs acc = Ok names.
Proof.
  induction segs as [|seg segs IH]; intros acc; simpl.
  - split; [now exists acc | intros _ ? []].
  - destruct (truthy seg) eqn:T; simpl.
    + fold (parse_segment seg).
      destruct (parse_segment seg) as [nt|e] eqn:P; simpl.
      * rewrite <- IH. split.
        -- intros H s Hs. apply H. now right.
        -- intros H s [<-|Hs] Hne; [|now apply H].
           apply parse_segment_ok. now exists nt.
      * split.
        -- intros H. exfalso.
           assert (W : well_formed seg)
             by (apply H; [now left | now apply truthy_true]).
           apply parse_segment_ok in W. destruct W as [nt W]. congruence.
        -- intros [? ?]; discriminate.
    + rewrite <- IH. apply truthy_false in T. subst seg. split.
      * intros H s Hs. apply H. now right.
      * intros H s [<-|Hs] Hne; [congruence | now apply H].
Qed.

Lemma arg_names_loop_err (segs : list string) :
  forall acc e, arg_names_loop segs acc = Raise e -> e = ValueError.
Proof.
  induction segs as [|seg segs IH]; intros acc e; simpl; [discriminate|].
  destruct (truthy seg); simpl; [|apply IH].
  fold (parse_segment seg).
  destruct (parse_segment seg) as [nt|e'] eqn:P; simpl; [apply IH|].
  intros H; injection H as <-. now apply parse_segment_err in P.
Qed.

Lemma loops_agree (segs : list string) :
  forall acc acc',
    is_ok (callable_loop segs acc) = is_ok (arg_names_loop segs acc').
Proof.
  induction segs as [|seg segs IH]; intros acc acc'; simpl; [reflexivity|].
  destruct (truthy seg); simpl; [|apply IH].
  destruct (unpack2 (split colon seg)); simpl; [apply IH|reflexivity].
Qed.

Lemma callable_loop_err (segs : list string) :
  forall acc e, callable_loop segs acc = Raise e -> e = ValueError.
Proof.
  induction segs as [|seg segs IH]; intros acc e; simpl; [discriminate|].
  destruct (truthy seg); simpl; [|apply IH].
  fold (parse_segment seg).
  destruct (parse_segment seg) as [nt|e'] eqn:P; simpl; [apply IH|].
  intros H; injection H as <-. now apply parse_segment_err in P.
Qed.

Lemma callable_ok_iff_arg_names_ok (h : Hook) :
  is_ok (callable h) = is_ok (arg_names h).
Proof.
  unfold callable, arg_names.
  rewrite <- (loops_agree (split comma (cb_args h)) [] []).
  destruct (callable_loop (split comma (cb_args h)) []); reflexivity.
Qed.

Lemma callable_err (h : Hook) (e : exn) :
  callable h = Raise e -> e = ValueError.
Proof.
  unfold callable.
  destruct (callable_loop (split comma (cb_args h)) []) eqn:L; simpl;
    [discriminate|].
  intros H; injection H as <-. now apply callable_loop_err in L.
Qed.

End Parsing.

(** ** Sorting and code assembly *)

Section Assembly.
Import Py Gen Script Spec.

Lemma In_insert_by_name (x h : Hook) (l : list Hook) :
  In x (insert_by_name h l) <-> x = h \/ In x l.
Proof.
  induction l as [|y l IH]; simpl.
  - intuition.
  - destruct (String.leb (name h) (name y)); simpl; [intuition|].
    rewrite IH. intuition.
Qed.

Lemma In_sort_by_name (x : Hook) (l : list Hook) :
  In x (sort_by_name l) <-> In x l.
Proof.
  induction l as [|y l IH]; simpl; [tauto|].
  rewrite In_insert_by_name, IH. intuition.
Qed.

(** An emitter that raises on one declaration makes the whole loop
    raise. *)
Lemma emit_all_raises (emit : Hook -> result string) (h : Hook) (e : exn) :
  emit h = Raise e ->
  forall l code, In h l -> exists e', emit_all emit l code = Raise e'.
Proof.
  intros He l. induction l as [|x l IH]; intros code []; simpl.
  - subst x. rewrite He. simpl. now exists e.
  - destruct (emit x) as [c|e']; simpl; [now apply IH | now exists e'].
Qed.

Lemma emit_all_err (emit : Hook -> result string) (e0 : exn) :
  (forall x e, emit x = Raise e -> e = e0) ->
  forall l code e, emit_all emit l code = Raise e -> e = e0.
Proof.
  intros He l. induction l as [|x l IH]; intros code e; simpl;
    [discriminate|].
  destruct (emit x) as [c|e'] eqn:Ex; simpl; [apply IH|].
  intros H; injection H as <-. now apply He in Ex.
Qed.

Lemma list_code_err (h : Hook) (e : exn) :
  list_code h = Raise e -> e = ValueError.
Proof.
  unfold list_code. destruct (callable h) eqn:C; simpl; [discriminate|].
  intros H; injection H as <-. now apply callable_err in C.
Qed.

(** A declaration whose signature does not parse stops the script in
    the first loop, before hooks.py is opened. *)
Lemma main_aborts_on_malformed (tc : string -> option (string -> string))
      (h : Hook) (hooks : list Hook) (hooks_py : string) :
  callable h = Raise ValueError -> In h hooks ->
  main tc hooks hooks_py = (Raise ValueError, hooks_py).
Proof.
  intros Hc Hin. unfold main, gen_code.
  assert (Hl : list_code h = Raise ValueError)
    by (unfold list_code; now rewrite Hc).
  apply In_sort_by_name in Hin.
  destruct (emit_all_raises list_code h _ Hl _ EmptyString Hin) as [e He].
  rewrite He. simpl.
  now rewrite (emit_all_err list_code ValueError list_code_err _ _ _ He).
Qed.

(** The same on the bytes of the file: the emitters raise before
    hooks.py is opened. *)
Lemma run_aborts_on_fire_failure
      (decode : list Byte.byte -> Disk.decoded)
      (tc : string -> option (string -> string))
      (h : Hook) (e : exn) (hooks : list Hook) (content : list Byte.byte) :
  fire_code h = Raise e -> In h hooks ->
  exists e', Disk.run decode tc hooks content = Some (Disk.Died e', content).
Proof.
  intros Hf Hin. unfold Disk.run, gen_code.
  apply In_sort_by_name in Hin.
  destruct (emit_all list_code (sort_by_name hooks) EmptyString)
    as [code|e1]; cbn [bind]; [|now exists e1].
  destruct (emit_all_raises fire_code h _ Hf _ (code ++ nl ++ nl) Hin)
    as [e' He].
  rewrite He. now exists e'.
Qed.

End Assembly.

(** ** The generator: parsing and type synthesis *)

Section Generator.
Import Py Gen Script Spec.

Lemma arg_names_loop_length (segs : list string) :
  forall acc names,
    arg_names_loop segs acc = Ok names ->
    List.length names = List.length acc + List.length (filter truthy segs).
Proof.
  induction segs as [|seg segs IH]; intros acc names; simpl.
  - intros H; injection H as <-. lia.
  - destruct (truthy seg); simpl; [|apply IH].
    destruct (unpack2 (split colon seg)); simpl; [|discriminate].
    intros H. apply IH in H. rewrite H, length_app. simpl. lia.
Qed.

Lemma well_formed_truthy (seg : string) : well_formed seg -> truthy seg = true.
Proof. destruct seg; [discriminate | reflexivity]. Qed.

(** C8 (amended): for every declaration whose callbackArgs encodes the
    pairs (n1,T1) ... (nk,Tk), [arg_names] yields the trimmed names and
    the synthesized callable type is
    Callable[[T1, ..., Tk], R] with the trimmed type texts joined by
    a comma and a space, where R is the declaration's returnType when
    that is present and not the empty string, and the text None
    otherwise.  The types are re-emitted as they stand.  "a: int, b: str"
    yields names a, b and types int, str; the empty callbackArgs yields
    none; "a:int" parses as "a: int" does. *)
Theorem callable_type_synthesis :
  (forall h pairs,
      signature (cb_args h) pairs ->
      arg_names h = Ok (names_of pairs)
      /\ callable h
         = Ok (callable_text (types_of pairs) (nonempty (return_type h))))
  /\ (arg_names (mkHook "x" "a: int, b: str" None None) = Ok ["a"; "b"]
      /\ callable (mkHook "x" "a: int, b: str" None None)
         = Ok (callable_text ["int"; "str"] None))
  /\ (arg_names (mkHook "x" EmptyString None None) = Ok []
      /\ callable (mkHook "x" EmptyString None None)
         = Ok (callable_text [] None))
  /\ (forall n r l,
         arg_names (mkHook n "a:int" r l) = arg_names (mkHook n "a: int" r l)
         /\ callable (mkHook n "a:int" r l)
            = callable (mkHook n "a: int" r l)).
Proof.
  split; [|repeat split].
  intros h pairs [Hsegs Hpairs]. split.
  - unfold arg_names.
    now rewrite (arg_names_loop_signature _ pairs [] Hsegs Hpairs).
  - unfold callable.
    rewrite (callable_loop_signature _ pairs [] Hsegs Hpairs). simpl.
    unfold callable_text. do 3 f_equal.
    destruct (return_type h) as [[|c r]|]; reflexivity.
Qed.

Lemma callable_type_synthesis_witness :
  signature "proceed: bool" [("proceed", " bool")]
  /\ callable (mkHook "mod_schema" "proceed: bool" (Some "bool") None)
     = Ok "Callable[[bool], bool]".
Proof.
  split.
  - split; [reflexivity | repeat constructor].
  - apply (proj1 callable_type_synthesis
             (mkHook "mod_schema" "proceed: bool" (Some "bool") None)
             [("proceed", " bool")]).
    split; [reflexivity | repeat constructor].
Defined.

(** C8 as first stated fails: a declaration whose returnType is the
    empty string has a returnType, yet its callable type ends in None. *)
Lemma callable_empty_return_type :
  signature (cb_args (mkHook "x" "a: int" (Some EmptyString) None))
            [("a", " int")]
  /\ callable (mkHook "x" "a: int" (Some EmptyString) None)
     <> Ok (callable_text (types_of [("a", " int")])
                          (return_type
                             (mkHook "x" "a: int" (Some EmptyString) None))).
Proof.
  split.
  - split; [reflexivity | repeat constructor].
  - vm_compute. discriminate.
Qed.

End Generator.

(** ** The generator: failures *)

Section Failures.
Import Py Gen Script Spec.

Lemma arg_names_not_ok_raises (h : Hook) :
  (forall names, arg_names h <> Ok names) -> arg_names h = Raise ValueError.
Proof.
  intros H. destruct (arg_names h) as [names|e] eqn:A.
  - now destruct (H names).
  - unfold arg_names in A. now rewrite (arg_names_loop_err _ _ _ A).
Qed.

Lemma callable_raises_with_arg_names (h : Hook) :
  arg_names h = Raise ValueError -> callable h = Raise ValueError.
Proof.
  intros A. pose proof (callable_ok_iff_arg_names_ok h) as H.
  rewrite A in H. destruct (callable h) as [c|e] eqn:C; [discriminate|].
  now rewrite (callable_err _ _ C).
Qed.

Lemma callable_ok_with_arg_names (h : Hook) (names : list string) :
  arg_names h = Ok names -> exists c, callable h = Ok c.
Proof.
  intros A. pose proof (callable_ok_iff_arg_names_ok h) as H.
  rewrite A in H. destruct (callable h) as [c|e]; [now exists c|discriminate].
Qed.

(** C9 (amended): a declaration whose callbackArgs holds a non-empty
    comma-separated segment without a colon makes [arg_names] and
    [callable] raise ValueError (the failed tuple unpacking), and a run
    over any list that holds the declaration stops with that error and
    leaves hooks.py as it was.  Parsing succeeds exactly when every
    non-empty segment holds one colon, no more. *)
Theorem malformed_signature_aborts (h : Hook) :
  ((exists seg, In seg (split comma (cb_args h))
                /\ seg <> EmptyString /\ count_char colon seg = 0) ->
   arg_names h = Raise ValueError
   /\ callable h = Raise ValueError
   /\ forall tc hooks hooks_py,
       In h hooks -> main tc hooks hooks_py = (Raise ValueError, hooks_py))
  /\ ((forall seg, In seg (split comma (cb_args h)) ->
                   seg <> EmptyString -> well_formed seg)
      <-> (exists names, arg_names h = Ok names)
          /\ (exists c, callable h = Ok c)).
Proof.
  split.
  - intros (seg & Hin & Hne & H0).
    assert (A : arg_names h = Raise ValueError).
    { apply arg_names_not_ok_raises. intros names A.
      assert (W : well_formed seg).
      { eapply (proj2 (arg_names_loop_ok _ [])); eauto. }
      unfold well_formed in W. lia. }
    pose proof (callable_raises_with_arg_names h A) as C.
    repeat split; trivial.
    intros tc hooks hooks_py Hh. now apply main_aborts_on_malformed with h.
  - split.
    + intros W. apply (arg_names_loop_ok _ []) in W.
      destruct W as [names A]. split; [now exists names|].
      now apply callable_ok_with_arg_names with names.
    + intros [A _]. now apply (arg_names_loop_ok _ []).
Qed.

Lemma malformed_signature_aborts_witness :
  (exists seg, In seg (split comma "a: int, b")
               /\ seg <> EmptyString /\ count_char colon seg = 0)
  /\ main (fun _ => None) [mkHook "x" "a: int, b" None None] "unchanged"
     = (Raise ValueError, "unchanged").
Proof.
  assert (H : exists seg, In seg (split comma "a: int, b")
                          /\ seg <> EmptyString /\ count_char colon seg = 0).
  { exists " b". split; [right; left; reflexivity|].
    split; [discriminate | reflexivity]. }
  split; [exact H|].
  apply (proj1 (malformed_signature_aborts
                  (mkHook "x" "a: int, b" None None)) H).
  left; reflexivity.
Defined.

(** C9 as first stated fails: every non-empty segment of "a: b: c"
    holds a colon, yet parsing fails, the unpacking meeting three
    parts. *)
Lemma too_many_colons_fail :
  (forall seg, In seg (split comma (cb_args (mkHook "x" "a: b: c" None None)))
               -> seg <> EmptyString -> count_char colon seg <> 0)
  /\ arg_names (mkHook "x" "a: b: c" None None) = Raise ValueError
  /\ callable (mkHook "x" "a: b: c" None None) = Raise ValueError.
Proof.
  split; [|split; reflexivity].
  intros seg [<-|[]] _. discriminate.
Qed.

(** C10 (amended): for a filter declaration (returnType set), as soon
    as callbackArgs holds one well-formed argument the access to the
    first argument name cannot fail (no IndexError); generating the
    dispatch function is total when, on top of that, every non-empty
    segment is well formed; a filter declared with empty callbackArgs
    makes the emitter raise IndexError and any run over a list that
    holds it stop without writing hooks.py. *)
Theorem filter_first_argument_in_bounds (h : Hook) (r : string) :
  return_type h = Some r ->
  ((exists seg, In seg (split comma (cb_args h)) /\ well_formed seg) ->
   filter_fire_code h <> Raise IndexError
   /\ ((forall seg, In seg (split comma (cb_args h)) ->
                    seg <> EmptyString -> well_formed seg) ->
       exists code, filter_fire_code h = Ok code /\ fire_code h = Ok code))
  /\ (cb_args h = EmptyString ->
      filter_fire_code h = Raise IndexError
      /\ fire_code h = Raise IndexError
      /\ forall decode tc hooks content,
          In h hooks ->
          exists e,
            Disk.run decode tc hooks content = Some (Disk.Died e, content)).
Proof.
  intros Hr.
  assert (Hfire : fire_code h = filter_fire_code h)
    by (unfold fire_code; now rewrite Hr).
  split.
  - intros (seg & Hin & Hw).
    assert (Hne : forall names, arg_names h = Ok names ->
                                exists n ns, names = n :: ns).
    { intros names A. apply arg_names_loop_length in A.
      assert (In seg (filter truthy (split comma (cb_args h))))
        by (apply filter_In; split; [assumption | now apply well_formed_truthy]).
      destruct (filter truthy (split comma (cb_args h))); [contradiction|].
      destruct names as [|n ns]; simpl in A; [lia | now exists n, ns]. }
    split.
    + unfold filter_fire_code.
      destruct (arg_names h) as [names|e] eqn:A; cbn [bind].
      * destruct (Hne names eq_refl) as (n & ns & ->). cbn. discriminate.
      * unfold arg_names in A. rewrite (arg_names_loop_err _ _ _ A).
        discriminate.
    + intros Hall. apply (arg_names_loop_ok _ []) in Hall.
      destruct Hall as [names A]. fold (arg_names h) in A.
      destruct (Hne names A) as (n & ns & ->).
      rewrite Hfire. unfold filter_fire_code. rewrite A. cbn [bind index0].
      eexists. split; reflexivity.
  - intros He.
    assert (F : filter_fire_code h = Raise IndexError).
    { unfold filter_fire_code, arg_names. rewrite He. reflexivity. }
    repeat split; [assumption | congruence |].
    intros decode tc hooks content Hin.
    apply run_aborts_on_fire_failure with h IndexError; congruence.
Qed.

Lemma filter_first_argument_in_bounds_witness :
  return_type (mkHook "mod_schema" "proceed: bool" (Some "bool") None)
  = Some "bool"
  /\ filter_fire_code (mkHook "mod_schema" "proceed: bool" (Some "bool") None)
     <> Raise IndexError.
Proof.
  split; [reflexivity|].
  apply (proj1 (filter_first_argument_in_bounds
                  (mkHook "mod_schema" "proceed: bool" (Some "bool") None)
                  "bool" eq_refl)).
  exists "proceed: bool". split; [left; reflexivity | reflexivity].
Defined.

(** C10 as first stated fails: one well-formed argument does not make
    the generation total.  In "a: int, b" the first segment is well
    formed, and the emitter of the filter raises ValueError on the
    second. *)
Lemma one_well_formed_argument_is_not_enough :
  return_type (mkHook "x" "a: int, b" (Some "int") None) = Some "int"
  /\ (exists seg,
         In seg (split comma (cb_args (mkHook "x" "a: int, b" (Some "int") None)))
         /\ well_formed seg)
  /\ filter_fire_code (mkHook "x" "a: int, b" (Some "int") None)
     = Raise ValueError
  /\ fire_code (mkHook "x" "a: int, b" (Some "int") None) = Raise ValueError.
Proof.
  split; [reflexivity|]. split; [|split; reflexivity].
  exists "a: int". split; [left; reflexivity | reflexivity].
Qed.

End Failures.

(** ** Determinism of the generated blob *)

Section Determinism.
Import Py Gen Script Spec Shape.

Lemma string_leb_refl (a : string) : String.leb a a = true.
Proof. destruct (String.leb_total a a); assumption. Qed.

Lemma string_leb_trans (a : string) :
  forall b c,
    String.leb a b = true -> String.leb b c = true -> String.leb a c = true.
Proof.
  unfold String.leb.
  induction a as [|x a IH]; intros [|y b] [|z c]; simpl; try congruence.
  specialize (IH b c). unfold Ascii.compare.
  destruct (N.compare_spec (N_of_ascii x) (N_of_ascii y)) as [Hxy|Hxy|Hxy];
    destruct (N.compare_spec (N_of_ascii y) (N_of_ascii z)) as [Hyz|Hyz|Hyz];
    try congruence;
    destruct (N.compare_spec (N_of_ascii x) (N_of_ascii z)) as [Hxz|Hxz|Hxz];
    try congruence; try lia; auto.
Qed.

Lemma insert_by_name_perm (h : Hook) (l : list Hook) :
  Permutation (insert_by_name h l) (h :: l).
Proof.
  induction l as [|x l IH]; simpl; [reflexivity|].
  destruct (String.leb (name h) (name x)); [reflexivity|].
  rewrite IH. apply perm_swap.
Qed.

Lemma sort_by_name_perm (l : list Hook) : Permutation (sort_by_name l) l.
Proof.
  induction l as [|x l IH]; simpl; [reflexivity|].
  rewrite insert_by_name_perm. now constructor.
Qed.

Lemma insert_by_name_sorted (h : Hook) (l : list Hook) :
  StronglySorted name_le l -> StronglySorted name_le (insert_by_name h l).
Proof.
  induction 1 as [|x l Hs IH Hx]; simpl.
  - repeat constructor.
  - destruct (String.leb (name h) (name x)) eqn:L.
    + constructor; [now constructor|].
      constructor; [exact L|].
      eapply Forall_impl; [|exact Hx].
      intros y Hy. unfold name_le in *. eapply string_leb_trans; eauto.
    + constructor; [exact IH|].
      apply Forall_forall. intros y Hy.
      apply In_insert_by_name in Hy. destruct Hy as [->|Hy].
      * unfold name_le. destruct (String.leb_total (name h) (name x));
          congruence.
      * rewrite Forall_forall in Hx. now apply Hx.
Qed.

Lemma sort_by_name_sorted (l : list Hook) :
  StronglySorted name_le (sort_by_name l).
Proof.
  induction l as [|x l IH]; simpl; [constructor|].
  now apply insert_by_name_sorted.
Qed.

Lemma named_insert_by_name (k : string) (h : Hook) (l : list Hook) :
  named k (insert_by_name h l) = named k (h :: l).
Proof.
  induction l as [|x l IH]; [reflexivity|].
  cbn [insert_by_name].
  destruct (String.leb (name h) (name x)) eqn:L; [reflexivity|].
  unfold named in *. cbn [filter] in *. rewrite IH.
  destruct (String.eqb (name x) k) eqn:Ex, (String.eqb (name h) k) eqn:Eh;
    try reflexivity.
  apply String.eqb_eq in Ex, Eh.
  rewrite Ex, Eh, string_leb_refl in L. discriminate.
Qed.

Lemma named_sort_by_name (k : string) (hooks : list Hook) :
  named k (sort_by_name hooks) = named k hooks.
Proof.
  induction hooks as [|h hooks IH]; [reflexivity|].
  cbn [sort_by_name fold_right]. fold (sort_by_name hooks).
  rewrite named_insert_by_name. unfold named in *. cbn [filter].
  now rewrite IH.
Qed.

Lemma sorted_names (l : list Hook) :
  StronglySorted name_le l ->
  StronglySorted (fun a b => String.leb a b = true) (map name l).
Proof.
  induction 1 as [|x l _ IH Hx]; cbn [map]; constructor; [exact IH|].
  apply Forall_map. exact Hx.
Qed.

(** Two sorted lists with the same names are the same list of
    names. *)
Lemma sorted_names_unique (l1 : list string) :
  forall l2,
    StronglySorted (fun a b => String.leb a b = true) l1 ->
    StronglySorted (fun a b => String.leb a b = true) l2 ->
    Permutation l1 l2 -> l1 = l2.
Proof.
  induction l1 as [|x l1 IH]; intros l2 S1 S2 P.
  - apply Permutation_nil in P. now subst.
  - destruct l2 as [|y l2].
    + apply Permutation_sym, Permutation_nil in P. discriminate.
    + assert (Hxy : x = y).
      { inversion S1 as [|? ? _ Hx]; inversion S2 as [|? ? _ Hy]; subst.
        rewrite Forall_forall in Hx, Hy.
        assert (Iy : In y (x :: l1))
          by (eapply Permutation_in;
              [apply Permutation_sym; exact P | now left]).
        assert (Ix : In x (y :: l2))
          by (eapply Permutation_in; [exact P | now left]).
        apply String.leb_antisym.
        - destruct Iy as [->|Iy]; [apply string_leb_refl | now apply Hx].
        - destruct Ix as [->|Ix]; [apply string_leb_refl | now apply Hy]. }
      subst y. f_equal.
      inversion S1; inversion S2; subst.
      apply IH; trivial. now apply Permutation_cons_inv with x.
Qed.

Lemma sorted_names_permutation (l1 l2 : list Hook) :
  Permutation l1 l2 ->
  map name (sort_by_name l1) = map name (sort_by_name l2).
Proof.
  intros P. apply sorted_names_unique;
    try (apply sorted_names, sort_by_name_sorted).
  apply Permutation_map. now rewrite !sort_by_name_perm.
Qed.

Lemma emit_all_pointwise (emit : Hook -> result string) (l : list Hook) :
  forall l' code,
    Forall2 (fun a b => emit a = emit b) l l' ->
    emit_all emit l code = emit_all emit l' code.
Proof.
  induction l as [|a l IH]; intros l' code F; inversion F; subst;
    [reflexivity|].
  cbn [emit_all]. match goal with H : emit a = emit _ |- _ => rewrite <- H end.
  destruct (emit a) as [c|e]; cbn [bind]; [now apply IH | reflexivity].
Qed.

Lemma same_names_pointwise (R : Hook -> Hook -> Prop) (pool : list Hook) :
  (forall a b, In a pool -> In b pool -> name a = name b -> R a b) ->
  forall l l',
    map name l = map name l' ->
    (forall a, In a l -> In a pool) -> (forall b, In b l' -> In b pool) ->
    Forall2 R l l'.
Proof.
  intros H. induction l as [|a l IH]; intros [|b l'] E Hl Hl';
    try discriminate; constructor.
  - injection E as E _. apply H; [apply Hl | apply Hl' | exact E]; now left.
  - injection E as _ E. apply IH; [exact E | |];
      intros x Hx; [apply Hl | apply Hl']; now right.
Qed.

(** C6 (amended): when any two declarations that share a name emit
    the same list declaration and the same dispatch function (so when
    no two share a name, and when those that do are equal), the
    generated blob (list declarations, then dispatch functions) and
    the outcome of the whole run are the same for every order of the
    input list, the declarations being sorted by ascending name
    before emission.  The sort compares the names only and is stable:
    in every case the declarations of one name are emitted in the
    order of the input list. *)
Theorem generation_order_independent (hooks1 hooks2 : list Hook) :
  Permutation hooks1 hooks2 ->
  (forall a b, In a hooks1 -> In b hooks1 -> name a = name b ->
               list_code a = list_code b /\ fire_code a = fire_code b) ->
  gen_code hooks1 = gen_code hooks2
  /\ (forall decode tc content,
         Disk.run decode tc hooks1 content = Disk.run decode tc hooks2 content)
  /\ (forall k, named k (sort_by_name hooks1) = named k hooks1)
  /\ (forall k, named k (sort_by_name hooks2) = named k hooks2).
Proof.
  intros P H.
  assert (F : Forall2 (fun a b => list_code a = list_code b
                                  /\ fire_code a = fire_code b)
                      (sort_by_name hooks1) (sort_by_name hooks2)).
  { apply (same_names_pointwise _ hooks1 H).
    - now apply sorted_names_permutation.
    - intros a Ha. exact (proj1 (In_sort_by_name a hooks1) Ha).
    - intros b Hb. apply (proj1 (In_sort_by_name b hooks2)) in Hb.
      eapply Permutation_in; [apply Permutation_sym; exact P | exact Hb]. }
  assert (G : gen_code hooks1 = gen_code hooks2).
  { unfold gen_code.
    rewrite (emit_all_pointwise list_code _ (sort_by_name hooks2))
      by (eapply Forall2_impl; [|exact F]; now intros a b [L _]).
    destruct (emit_all list_code (sort_by_name hooks2) EmptyString)
      as [code|e]; cbn [bind]; [|reflexivity].
    apply emit_all_pointwise.
    eapply Forall2_impl; [|exact F]. now intros a b [_ L]. }
  split; [exact G|]. split.
  - intros decode tc content. unfold Disk.run. now rewrite G.
  - split; intros k; apply named_sort_by_name.
Qed.

Lemma generation_order_independent_witness :
  Permutation [mkHook "x" EmptyString None None;
               mkHook "x" EmptyString None (Some EmptyString);
               mkHook "a" "n: int" (Some "int") None]
              [mkHook "a" "n: int" (Some "int") None;
               mkHook "x" EmptyString None (Some EmptyString);
               mkHook "x" EmptyString None None]
  /\ gen_code [mkHook "x" EmptyString None None;
               mkHook "x" EmptyString None (Some EmptyString);
               mkHook "a" "n: int" (Some "int") None]
     = gen_code [mkHook "a" "n: int" (Some "int") None;
                 mkHook "x" EmptyString None (Some EmptyString);
                 mkHook "x" EmptyString None None].
Proof.
  assert (P : Permutation [mkHook "x" EmptyString None None;
                           mkHook "x" EmptyString None (Some EmptyString);
                           mkHook "a" "n: int" (Some "int") None]
                          [mkHook "a" "n: int" (Some "int") None;
                           mkHook "x" EmptyString None (Some EmptyString);
                           mkHook "x" EmptyString None None])
    by apply (Permutation_rev [_; _; _]).
  split; [exact P|].
  refine (proj1 (generation_order_independent _ _ P _)).
  intros a b [<-|[<-|[<-|[]]]] [<-|[<-|[<-|[]]]] E;
    try discriminate E; split; reflexivity.
Defined.

(** C6 as first stated fails: two declarations of one name that differ
    elsewhere come out in their input order. *)
Lemma same_name_keeps_input_order :
  Permutation [mkHook "x" "a: int" None None; mkHook "x" EmptyString None None]
              [mkHook "x" EmptyString None None; mkHook "x" "a: int" None None]
  /\ gen_code [mkHook "x" "a: int" None None;
               mkHook "x" EmptyString None None]
     <> gen_code [mkHook "x" EmptyString None None;
                  mkHook "x" "a: int" None None].
Proof.
  split; [apply perm_swap|]. vm_compute. discriminate.
Qed.

End Determinism.

(** ** The splice into hooks.py *)

Section Matching.
Import Py Gen Script Spec.

Lemma prefix_app (a r : string) : String.prefix a (a ++ r) = true.
Proof.
  induction a as [|c a IH]; simpl; [now destruct r|].
  destruct (ascii_dec c c); [exact IH | congruence].
Qed.

Lemma prefix_inv (a : string) :
  forall s, String.prefix a s = true -> exists r, s = a ++ r.
Proof.
  induction a as [|c a IH]; intros s H.
  - now exists s.
  - destruct s as [|d s]; simpl in H; [discriminate|].
    destruct (ascii_dec c d) as [<-|]; [|discriminate].
    destruct (IH s H) as [r ->]. now exists r.
Qed.

Lemma prefix_app_l (a b : string) :
  forall s, String.prefix (a ++ b) s = true -> String.prefix a s = true.
Proof.
  intros s H. apply prefix_inv in H. destruct H as [r ->].
  rewrite append_assoc. apply prefix_app.
Qed.

Lemma prefix_weaken (a s r : string) :
  String.prefix a s = true -> String.prefix a (s ++ r) = true.
Proof.
  intros H. apply prefix_inv in H. destruct H as [x ->].
  rewrite append_assoc. apply prefix_app.
Qed.

(** A needle no longer than [a] is looked for in [a] alone. *)
Lemma prefix_short (needle : string) :
  forall a r,
    String.length needle <= String.length a ->
    String.prefix needle (a ++ r) = String.prefix needle a.
Proof.
  induction needle as [|c needle IH]; intros a r L.
  - destruct a; [now destruct r | reflexivity].
  - destruct a as [|d a]; simpl in *; [lia|].
    destruct (ascii_dec c d); [apply IH; lia | reflexivity].
Qed.

Lemma occurrences_cons (needle : string) (c : ascii) (s : string) :
  occurrences needle (String c s)
  = (if String.prefix needle (String c s) then 1 else 0)
    + occurrences needle s.
Proof. reflexivity. Qed.

Lemma occurrences_app_le (needle a s : string) :
  occurrences needle s <= occurrences needle (a ++ s).
Proof.
  induction a as [|c a IH]; [apply Nat.le_refl|].
  change (String c a ++ s) with (String c (a ++ s)).
  rewrite occurrences_cons. lia.
Qed.

Lemma drop_app_length (a s : string) : drop (String.length a) (a ++ s) = s.
Proof. induction a as [|c a IH]; simpl; [now destruct s | exact IH]. Qed.

Lemma substring_app_length (a s : string) :
  substring 0 (String.length a) (a ++ s) = a.
Proof.
  induction a as [|c a IH]; simpl; [now destruct s | now rewrite IH].
Qed.

Lemma lazy_until_hit (close s : string) :
  String.prefix close s = true ->
  lazy_until close s = Some (String.length close).
Proof. intros H. destruct s; cbn [lazy_until]; now rewrite H. Qed.

Lemma lazy_until_miss (close : string) (c : ascii) (s : string) :
  String.prefix close (String c s) = false ->
  lazy_until close (String c s) = option_map S (lazy_until close s).
Proof. intros H. cbn [lazy_until]. now rewrite H. Qed.

(** The needles of the pattern start with a character that does not
    come back in them; such a needle cannot overlap itself. *)
Section Needle.
Variables (h : ascii) (t : string).
Hypothesis fresh : count_char h t = 0.

Lemma tail_not_across (u : string) :
  forall a x,
    count_char h u = 0 ->
    String.prefix u (a ++ String h x) = true -> String.prefix u a = true.
Proof.
  induction u as [|c u IH]; intros a x Hc H.
  - now destruct a.
  - simpl in Hc.
    destruct (Ascii.eqb c h) eqn:E; [discriminate|]. simpl in Hc.
    destruct a as [|d a]; simpl in *.
    + destruct (ascii_dec c h) as [->|]; [|discriminate].
      now rewrite Ascii.eqb_refl in E.
    + destruct (ascii_dec c d); [|discriminate]. now apply IH with x.
Qed.

Lemma no_straddle (a r : string) :
  occurrences (String h t) a = 0 -> a <> EmptyString ->
  String.prefix (String h t) (a ++ String h t ++ r) = false.
Proof.
  intros Ho Hne. destruct a as [|c a]; [congruence|].
  rewrite occurrences_cons in Ho.
  destruct (String.prefix (String h t) (String c a)) eqn:P; [discriminate|].
  destruct (String.prefix (String h t) (String c a ++ String h t ++ r))
    eqn:Q; [|reflexivity].
  simpl in P, Q. destruct (ascii_dec h c); [|discriminate].
  change (String h t ++ r) with (String h (t ++ r)) in Q.
  apply tail_not_across in Q; [congruence | exact fresh].
Qed.

Lemma lazy_until_first (mid : string) :
  forall post,
    occurrences (String h t) mid = 0 ->
    lazy_until (String h t) (mid ++ String h t ++ post)
    = Some (String.length mid + String.length (String h t)).
Proof.
  induction mid as [|c mid IH]; intros post Ho.
  - apply lazy_until_hit. apply (prefix_app (String h t) post).
  - change (String c mid ++ String h t ++ post)
      with (String c (mid ++ String h t ++ post)).
    rewrite lazy_until_miss.
    + rewrite occurrences_cons in Ho. rewrite IH by lia. reflexivity.
    + change (String c (mid ++ String h t ++ post))
        with (String c mid ++ String h t ++ post).
      apply no_straddle; [exact Ho | discriminate].
Qed.

Lemma lazy_until_inv (x : string) :
  forall k,
    lazy_until (String h t) x = Some k ->
    exists mid post,
      x = mid ++ String h t ++ post
      /\ occurrences (String h t) mid = 0
      /\ k = String.length mid + String.length (String h t).
Proof.
  induction x as [|c x IH]; intros k H.
  - simpl in H. discriminate.
  - destruct (String.prefix (String h t) (String c x)) eqn:P.
    + rewrite (lazy_until_hit _ _ P) in H.
      injection H as <-. apply prefix_inv in P. destruct P as [r ->].
      exists EmptyString, r. repeat split.
    + rewrite (lazy_until_miss _ _ _ P) in H.
      destruct (lazy_until (String h t) x) as [k'|] eqn:L; [|discriminate].
      injection H as <-.
      destruct (IH k' eq_refl) as (mid & post & -> & Ho & ->).
      exists (String c mid), post. repeat split.
      rewrite occurrences_cons, Ho.
      destruct (String.prefix (String h t) (String c mid)) eqn:Q;
        [|reflexivity].
      apply prefix_weaken with (r := String h t ++ post) in Q.
      change (String c mid ++ String h t ++ post)
        with (String c (mid ++ String h t ++ post)) in Q.
      congruence.
Qed.

Lemma lazy_until_none (x : string) :
  lazy_until (String h t) x = None -> occurrences (String h t) x = 0.
Proof.
  induction x as [|c x IH]; intros H.
  - reflexivity.
  - rewrite occurrences_cons.
    destruct (String.prefix (String h t) (String c x)) eqn:P.
    + rewrite (lazy_until_hit _ _ P) in H. discriminate.
    + rewrite (lazy_until_miss _ _ _ P) in H.
      destruct (lazy_until (String h t) x); [discriminate|].
      now rewrite IH.
Qed.

End Needle.

End Matching.

Section Scanning.
Import Py Gen Script Spec.

Lemma marker_fresh : count_char "#" " @@AUTOGEN@@" = 0.
Proof. reflexivity. Qed.

Lemma closing_fresh : count_char "#" (" @@AUTOGEN@@" ++ nl) = 0.
Proof. reflexivity. Qed.

Lemma closing_first (mid post : string) :
  occurrences closing mid = 0 ->
  lazy_until closing (mid ++ closing ++ post)
  = Some (String.length mid + String.length closing).
Proof. exact (lazy_until_first "#" _ closing_fresh mid post). Qed.

Lemma closing_inv (x : string) (k : nat) :
  lazy_until closing x = Some k ->
  exists mid post,
    x = mid ++ closing ++ post
    /\ occurrences closing mid = 0
    /\ k = String.length mid + String.length closing.
Proof. exact (lazy_until_inv "#" _ x k). Qed.

Lemma closing_none (x : string) :
  lazy_until closing x = None -> occurrences closing x = 0.
Proof. exact (lazy_until_none "#" _ x). Qed.

Lemma marker_not_across (pre r : string) :
  occurrences marker pre = 0 -> pre <> EmptyString ->
  String.prefix marker (pre ++ marker ++ r) = false.
Proof. exact (no_straddle "#" _ marker_fresh pre r). Qed.

Lemma match_at_region (mid post : string) :
  occurrences closing mid = 0 ->
  match_at (marker ++ mid ++ closing ++ post)
  = Some (String.length (marker ++ mid ++ closing)).
Proof.
  intros Ho. unfold match_at.
  rewrite prefix_app, drop_app_length.
  change (marker ++ nl) with closing.
  rewrite (closing_first mid post Ho).
  cbn [option_map]. now rewrite !length_append.
Qed.

Lemma match_at_inv (s : string) (len : nat) :
  match_at s = Some len ->
  exists mid post,
    s = marker ++ mid ++ closing ++ post
    /\ occurrences closing mid = 0
    /\ len = String.length (marker ++ mid ++ closing).
Proof.
  unfold match_at. destruct (String.prefix marker s) eqn:P; [|discriminate].
  apply prefix_inv in P. destruct P as [x ->].
  rewrite drop_app_length. change (marker ++ nl) with closing.
  destruct (lazy_until closing x) as [k|] eqn:L; [|discriminate].
  cbn [option_map]. intros H; injection H as <-.
  destruct (closing_inv x k L) as (mid & post & -> & Ho & ->).
  exists mid, post. repeat split; trivial. now rewrite !length_append.
Qed.

Lemma match_at_before (pre r : string) :
  occurrences marker pre = 0 -> pre <> EmptyString ->
  match_at (pre ++ marker ++ r) = None.
Proof.
  intros Ho Hne. unfold match_at.
  now rewrite (marker_not_across pre r Ho Hne).
Qed.

Lemma match_needs_two_markers (s : string) (len : nat) :
  match_at s = Some len -> 2 <= occurrences marker s.
Proof.
  intros H. destruct (match_at_inv _ _ H) as (mid & post & -> & _ & _).
  change (marker ++ mid ++ closing ++ post)
    with (String "#" (" @@AUTOGEN@@" ++ mid ++ closing ++ post)).
  rewrite occurrences_cons.
  change (String "#" (" @@AUTOGEN@@" ++ mid ++ closing ++ post))
    with (marker ++ mid ++ closing ++ post).
  rewrite prefix_app.
  pose proof (occurrences_app_le marker (" @@AUTOGEN@@" ++ mid)
                (closing ++ post)) as L.
  rewrite append_assoc in L.
  assert (1 <= occurrences marker (closing ++ post)); [|lia].
  change (closing ++ post) with (String "#" (" @@AUTOGEN@@" ++ nl ++ post)).
  rewrite occurrences_cons.
  change (String "#" (" @@AUTOGEN@@" ++ nl ++ post))
    with (marker ++ nl ++ post).
  rewrite prefix_app. lia.
Qed.

Lemma match_needs_closing (s : string) (len : nat) :
  match_at s = Some len -> 1 <= occurrences closing s.
Proof.
  intros H. destruct (match_at_inv _ _ H) as (mid & post & -> & _ & _).
  pose proof (occurrences_app_le closing (marker ++ mid) (closing ++ post))
    as L.
  rewrite append_assoc in L.
  assert (1 <= occurrences closing (closing ++ post)); [|lia].
  change (closing ++ post) with (String "#" (" @@AUTOGEN@@" ++ nl ++ post)).
  rewrite occurrences_cons.
  change (String "#" (" @@AUTOGEN@@" ++ nl ++ post)) with (closing ++ post).
  rewrite prefix_app. lia.
Qed.

Variable repl : string -> string.

Lemma sub_scan_skip (a b : string) :
  sub_scan repl (String.length a) (a ++ b) = sub_scan repl 0 b.
Proof.
  induction a as [|c a IH]; [reflexivity|]. simpl. exact IH.
Qed.

Lemma sub_scan_hit (c : ascii) (s : string) (len : nat) :
  match_at (String c s) = Some len ->
  sub_scan repl 0 (String c s)
  = repl (substring 0 len (String c s)) ++ sub_scan repl (len - 1) s.
Proof. intros H. cbn [sub_scan]. now rewrite H. Qed.

Lemma sub_scan_miss (c : ascii) (s : string) :
  match_at (String c s) = None ->
  sub_scan repl 0 (String c s) = String c (sub_scan repl 0 s).
Proof. intros H. cbn [sub_scan]. now rewrite H. Qed.

Lemma sub_scan_region_head (mid post : string) :
  occurrences closing mid = 0 ->
  sub_scan repl 0 (marker ++ mid ++ closing ++ post)
  = repl (marker ++ mid ++ closing) ++ sub_scan repl 0 post.
Proof.
  intros Ho. pose proof (match_at_region mid post Ho) as M.
  assert (E : marker ++ mid ++ closing ++ post
              = (marker ++ mid ++ closing) ++ post)
    by now rewrite !append_assoc.
  rewrite E in *.
  remember (marker ++ mid ++ closing) as g eqn:G.
  destruct g as [|c g]; [discriminate|].
  change (String c g ++ post) with (String c (g ++ post)) in *.
  rewrite (sub_scan_hit _ _ _ M).
  change (String c (g ++ post)) with (String c g ++ post).
  rewrite substring_app_length.
  cbn [String.length Nat.sub]. rewrite Nat.sub_0_r.
  now rewrite sub_scan_skip.
Qed.

(** The scan copies what precedes the first marker, replaces the
    region that runs from it to the next closing marker, and goes on
    with what follows. *)
Lemma sub_scan_region (pre mid post : string) :
  occurrences marker pre = 0 ->
  occurrences closing mid = 0 ->
  sub_scan repl 0 (pre ++ marker ++ mid ++ closing ++ post)
  = pre ++ repl (marker ++ mid ++ closing) ++ sub_scan repl 0 post.
Proof.
  intros Hp Hm. induction pre as [|c pre IH].
  - now apply sub_scan_region_head.
  - change (String c pre ++ marker ++ mid ++ closing ++ post)
      with (String c (pre ++ marker ++ mid ++ closing ++ post)).
    rewrite sub_scan_miss.
    + rewrite occurrences_cons in Hp. rewrite IH by lia. reflexivity.
    + change (String c (pre ++ marker ++ mid ++ closing ++ post))
        with (String c pre ++ marker ++ mid ++ closing ++ post).
      apply match_at_before; [exact Hp | discriminate].
Qed.

(** Without two markers nothing matches and the scan copies. *)
Lemma sub_scan_few_markers (s : string) :
  occurrences marker s < 2 -> sub_scan repl 0 s = s.
Proof.
  induction s as [|c s IH]; intros H; [reflexivity|].
  destruct (match_at (String c s)) as [len|] eqn:M.
  - apply match_needs_two_markers in M. lia.
  - rewrite (sub_scan_miss _ _ M). rewrite occurrences_cons in H.
    rewrite IH by lia. reflexivity.
Qed.

Lemma sub_scan_no_closing (s : string) :
  occurrences closing s = 0 -> sub_scan repl 0 s = s.
Proof.
  induction s as [|c s IH]; intros H; [reflexivity|].
  destruct (match_at (String c s)) as [len|] eqn:M.
  - apply match_needs_closing in M. lia.
  - rewrite (sub_scan_miss _ _ M). rewrite occurrences_cons in H.
    rewrite IH by lia. reflexivity.
Qed.

End Scanning.

Section Idempotence.
Import Py Gen Script Spec.

Lemma occurrences_skip_fresh (h : ascii) (t a x : string) :
  count_char h a = 0 ->
  occurrences (String h t) (a ++ x) = occurrences (String h t) x.
Proof.
  induction a as [|d a IH]; intros Hc; [reflexivity|].
  simpl in Hc. destruct (Ascii.eqb d h) eqn:E; [discriminate|].
  change (String d a ++ x) with (String d (a ++ x)).
  rewrite occurrences_cons, IH by exact Hc.
  cbn [String.prefix].
  destruct (ascii_dec h d) as [->|]; [|reflexivity].
  now rewrite Ascii.eqb_refl in E.
Qed.

(** The replacement text: a marker, a body that holds no closing
    marker, a closing marker. *)
Variable body : string.
Hypothesis body_clean : occurrences closing body = 0.

Let repl : string -> string := fun _ => marker ++ body ++ closing.

(** The scan leaves the first characters of the subject alone, up to
    the length of a marker. *)
Lemma prefix_stable (s : string) :
  forall needle,
    String.length needle <= String.length marker ->
    String.prefix needle (sub_scan repl 0 s) = String.prefix needle s.
Proof.
  induction s as [|c s IH]; intros needle L; [reflexivity|].
  destruct (match_at (String c s)) as [len|] eqn:M.
  - destruct (match_at_inv _ _ M) as (mid & post & E & Ho & _).
    rewrite E, (sub_scan_region_head repl mid post Ho).
    change (repl (marker ++ mid ++ closing)) with (marker ++ body ++ closing).
    rewrite !append_assoc.
    now rewrite !prefix_short by exact L.
  - rewrite (sub_scan_miss _ _ _ M).
    destruct needle as [|d needle]; [reflexivity|].
    cbn [String.prefix]. destruct (ascii_dec d c); [|reflexivity].
    apply IH. simpl in L. simpl. lia.
Qed.

Lemma sub_scan_idempotent_bounded (n : nat) :
  forall s,
    String.length s <= n ->
    sub_scan repl 0 (sub_scan repl 0 s) = sub_scan repl 0 s.
Proof.
  induction n as [|n IH]; intros s L.
  - destruct s; [reflexivity | simpl in L; lia].
  - destruct s as [|c s]; [reflexivity|].
    destruct (match_at (String c s)) as [len|] eqn:M.
    + destruct (match_at_inv _ _ M) as (mid & post & E & Ho & _).
      rewrite E, (sub_scan_region_head repl mid post Ho).
      change (repl (marker ++ mid ++ closing)) with (marker ++ body ++ closing).
      rewrite !append_assoc.
      rewrite (sub_scan_region_head repl body _ body_clean).
      rewrite IH; [unfold repl; now rewrite !append_assoc|].
      rewrite E in L. rewrite !length_append in L.
      simpl in L. lia.
    + rewrite (sub_scan_miss _ _ _ M).
      assert (M' : match_at (String c (sub_scan repl 0 s)) = None).
      { destruct (String.prefix marker (String c s)) eqn:P.
        - assert (F : sub_scan repl 0 s = s); [|now rewrite F].
          unfold match_at in M. rewrite P in M.
          apply prefix_inv in P. destruct P as [x P].
          rewrite P, drop_app_length in M.
          change (marker ++ nl) with closing in M.
          destruct (lazy_until closing x) eqn:Lx; [discriminate|].
          apply closing_none in Lx.
          injection P as _ ->.
          apply sub_scan_no_closing.
          change closing with (String "#" (" @@AUTOGEN@@" ++ nl)) in *.
          now rewrite (occurrences_skip_fresh "#" _ " @@AUTOGEN@@" x eq_refl).
        - unfold match_at.
          rewrite <- (sub_scan_miss repl _ _ M).
          now rewrite (prefix_stable (String c s) marker (Nat.le_refl _)), P. }
      rewrite (sub_scan_miss _ _ _ M'). f_equal. apply IH.
      simpl in L. lia.
Qed.

Lemma sub_scan_idempotent (s : string) :
  sub_scan repl 0 (sub_scan repl 0 s) = sub_scan repl 0 s.
Proof. now apply sub_scan_idempotent_bounded with (String.length s). Qed.


End Idempotence.

Section SpliceFacts.
Import Py Gen Script Spec.

Lemma has_backslash_app (a b : string) :
  has_backslash (a ++ b) = has_backslash a || has_backslash b.
Proof.
  induction a as [|c a IH]; [reflexivity|]. simpl.
  now rewrite IH, orb_assoc.
Qed.

Variable tc : string -> option (string -> string).

(** A blob without backslash is spliced in as it stands. *)
Lemma splice_literal (code orig : string) :
  has_backslash code = false ->
  splice tc code orig
  = Ok (sub_scan (fun _ => marker ++ (nl ++ nl ++ code) ++ closing) 0 orig).
Proof.
  intros H. unfold splice, re_sub.
  replace (has_backslash (marker ++ nl ++ nl ++ code ++ marker ++ nl))
    with false.
  - do 2 f_equal.
  - rewrite !has_backslash_app, H. reflexivity.
Qed.

End SpliceFacts.

(** ** Reading hooks.py back *)

Section Newlines.
Import Py Gen Script Spec Disk.

Lemma count_char_app (c : ascii) (a b : string) :
  count_char c (a ++ b) = count_char c a + count_char c b.
Proof.
  induction a as [|d a IH]; [reflexivity|]. simpl. rewrite IH. lia.
Qed.

Lemma universal_newlines_cons (c : ascii) (s : string) :
  Ascii.eqb c cr = false ->
  universal_newlines (String c s) = String c (universal_newlines s).
Proof. intros H. cbn [universal_newlines]. now rewrite H. Qed.

(** What was read holds no carriage return. *)
Lemma universal_newlines_no_cr_bounded (n : nat) :
  forall s, String.length s <= n -> count_char cr (universal_newlines s) = 0.
Proof.
  induction n as [|n IH]; intros [|c s] L; try reflexivity;
    [simpl in L; lia|].
  simpl in L. cbn [universal_newlines].
  destruct (Ascii.eqb c cr) eqn:C.
  - cbn [count_char]. change (Ascii.eqb lf cr) with false.
    destruct s as [|d s]; [reflexivity|].
    simpl in L. destruct (Ascii.eqb d lf); apply IH; simpl; lia.
  - cbn [count_char]. rewrite C. apply IH. lia.
Qed.

Lemma universal_newlines_no_cr (s : string) :
  count_char cr (universal_newlines s) = 0.
Proof. now apply universal_newlines_no_cr_bounded with (String.length s). Qed.

(** A text without carriage return is read as it stands. *)
Lemma universal_newlines_id (s : string) :
  count_char cr s = 0 -> universal_newlines s = s.
Proof.
  induction s as [|c s IH]; intros H; [reflexivity|].
  simpl in H. destruct (Ascii.eqb c cr) eqn:C; [discriminate|].
  rewrite (universal_newlines_cons _ _ C), IH; trivial.
Qed.

Lemma universal_newlines_app_plain (a b : string) :
  count_char cr a = 0 ->
  universal_newlines (a ++ b) = a ++ universal_newlines b.
Proof.
  induction a as [|c a IH]; intros H; [reflexivity|].
  simpl in H. destruct (Ascii.eqb c cr) eqn:C; [discriminate|].
  change (String c a ++ b) with (String c (a ++ b)).
  rewrite (universal_newlines_cons _ _ C), IH; trivial.
Qed.

Lemma universal_newlines_crlf (c d : ascii) (s : string) :
  Ascii.eqb c cr = true -> Ascii.eqb d lf = true ->
  universal_newlines (String c (String d s)) = String lf (universal_newlines s).
Proof. intros C D. cbn [universal_newlines]. now rewrite C, D. Qed.

Lemma universal_newlines_cr (c d : ascii) (s : string) :
  Ascii.eqb c cr = true -> Ascii.eqb d lf = false ->
  universal_newlines (String c (String d s))
  = String lf (universal_newlines (String d s)).
Proof.
  intros C D.
  change (universal_newlines (String c (String d s)))
    with (if Ascii.eqb c cr
          then String lf (if Ascii.eqb d lf then universal_newlines s
                          else universal_newlines (String d s))
          else String c (universal_newlines (String d s))).
  now rewrite C, D.
Qed.

(** The translation works on the two parts of a text apart, unless the
    cut falls between a carriage return and a line feed. *)
Lemma universal_newlines_app_bounded (n : nat) :
  forall a c b,
    String.length a <= n -> Ascii.eqb c lf = false ->
    universal_newlines (a ++ String c b)
    = universal_newlines a ++ universal_newlines (String c b).
Proof.
  induction n as [|n IH]; intros [|x a] c b L Hc; try reflexivity;
    [simpl in L; lia|].
  simpl in L.
  destruct (Ascii.eqb x cr) eqn:X.
  - destruct a as [|d a].
    + change (String x EmptyString ++ String c b)
        with (String x (String c b)).
      rewrite (universal_newlines_cr _ _ _ X Hc).
      cbn [universal_newlines]. now rewrite X.
    + change (String x (String d a) ++ String c b)
        with (String x (String d (a ++ String c b))).
      simpl in L.
      destruct (Ascii.eqb d lf) eqn:D.
      * rewrite !(universal_newlines_crlf _ _ _ X D).
        cbn [append]. f_equal. apply IH; [lia | exact Hc].
      * rewrite !(universal_newlines_cr _ _ _ X D).
        cbn [append]. f_equal.
        change (String d (a ++ String c b)) with (String d a ++ String c b).
        apply IH; [simpl; lia | exact Hc].
  - change (String x a ++ String c b) with (String x (a ++ String c b)).
    rewrite !(universal_newlines_cons _ _ X).
    cbn [append]. f_equal. apply IH; [lia | exact Hc].
Qed.

Lemma universal_newlines_app (a b : string) (c : ascii) :
  Ascii.eqb c lf = false ->
  universal_newlines (a ++ String c b)
  = universal_newlines a ++ universal_newlines (String c b).
Proof.
  intros H. now apply universal_newlines_app_bounded with (String.length a).
Qed.

(** The replacement text as the next run reads it. *)
Lemma universal_newlines_replacement (code x : string) :
  universal_newlines ((marker ++ (nl ++ nl ++ code) ++ closing) ++ x)
  = (marker ++ (nl ++ nl ++ universal_newlines code) ++ closing)
      ++ universal_newlines x.
Proof.
  rewrite !append_assoc.
  rewrite (universal_newlines_app_plain marker) by reflexivity.
  rewrite (universal_newlines_app_plain nl) by reflexivity.
  rewrite (universal_newlines_app_plain nl) by reflexivity.
  change (closing ++ x) with (String "#" (" @@AUTOGEN@@" ++ nl ++ x)).
  rewrite (universal_newlines_app code) by reflexivity.
  change (String "#" (" @@AUTOGEN@@" ++ nl ++ x)) with (closing ++ x).
  rewrite (universal_newlines_app_plain closing) by reflexivity.
  reflexivity.
Qed.

Lemma universal_newlines_scan_bounded (code : string) (n : nat) :
  forall s,
    String.length s <= n -> count_char cr s = 0 ->
    universal_newlines
      (sub_scan (fun _ => marker ++ (nl ++ nl ++ code) ++ closing) 0 s)
    = sub_scan (fun _ => marker ++ (nl ++ nl ++ universal_newlines code)
                                ++ closing) 0 s.
Proof.
  induction n as [|n IH]; intros [|c s] L H; try reflexivity;
    [simpl in L; lia|].
  destruct (match_at (String c s)) as [len|] eqn:M.
  - destruct (match_at_inv _ _ M) as (mid & post & E & Ho & _).
    rewrite E, !(sub_scan_region_head _ mid post Ho).
    rewrite universal_newlines_replacement. f_equal.
    rewrite E in L, H. rewrite !length_append in L.
    rewrite !count_char_app in H.
    apply IH; [simpl in L; lia | lia].
  - rewrite !(sub_scan_miss _ _ _ M).
    simpl in H, L. destruct (Ascii.eqb c cr) eqn:C; [discriminate|].
    rewrite (universal_newlines_cons _ _ C). f_equal.
    apply IH; [lia | exact H].
Qed.

Lemma universal_newlines_scan (code s : string) :
  count_char cr s = 0 ->
  universal_newlines
    (sub_scan (fun _ => marker ++ (nl ++ nl ++ code) ++ closing) 0 s)
  = sub_scan (fun _ => marker ++ (nl ++ nl ++ universal_newlines code)
                              ++ closing) 0 s.
Proof.
  now apply universal_newlines_scan_bounded with (String.length s).
Qed.

End Newlines.

Section Absorption.
Import Py Gen Script Spec.

Variable body : string.
Hypothesis body_clean : occurrences closing body = 0.
Variable outer : string.

Let inner : string -> string := fun _ => marker ++ body ++ closing.
Let repl : string -> string := fun _ => outer.

(** A scan takes the regions that an earlier scan has filled for the
    regions they replace. *)
Lemma sub_scan_absorbs_bounded (n : nat) :
  forall s,
    String.length s <= n ->
    sub_scan repl 0 (sub_scan inner 0 s) = sub_scan repl 0 s.
Proof.
  induction n as [|n IH]; intros s L.
  - destruct s; [reflexivity | simpl in L; lia].
  - destruct s as [|c s]; [reflexivity|].
    destruct (match_at (String c s)) as [len|] eqn:M.
    + destruct (match_at_inv _ _ M) as (mid & post & E & Ho & _).
      rewrite E, !(sub_scan_region_head _ mid post Ho).
      change (inner (marker ++ mid ++ closing)) with (marker ++ body ++ closing).
      rewrite !append_assoc.
      rewrite (sub_scan_region_head repl body _ body_clean).
      rewrite IH; [reflexivity|].
      rewrite E in L. rewrite !length_append in L.
      simpl in L. lia.
    + rewrite (sub_scan_miss _ _ _ M).
      assert (M' : match_at (String c (sub_scan inner 0 s)) = None).
      { destruct (String.prefix marker (String c s)) eqn:P.
        - assert (F : sub_scan inner 0 s = s); [|now rewrite F].
          unfold match_at in M. rewrite P in M.
          apply prefix_inv in P. destruct P as [x P].
          rewrite P, drop_app_length in M.
          change (marker ++ nl) with closing in M.
          destruct (lazy_until closing x) eqn:Lx; [discriminate|].
          apply closing_none in Lx.
          injection P as _ ->.
          apply sub_scan_no_closing.
          change closing with (String "#" (" @@AUTOGEN@@" ++ nl)) in *.
          now rewrite (occurrences_skip_fresh "#" _ " @@AUTOGEN@@" x eq_refl).
        - unfold match_at.
          rewrite <- (sub_scan_miss inner _ _ M). unfold inner.
          now rewrite (prefix_stable body body_clean (String c s) marker
                         (Nat.le_refl _)), P. }
      rewrite (sub_scan_miss _ _ _ M'), (sub_scan_miss _ _ _ M).
      f_equal. apply IH. simpl in L. lia.
Qed.

Lemma sub_scan_absorbs (s : string) :
  sub_scan repl 0 (sub_scan inner 0 s) = sub_scan repl 0 s.
Proof. now apply sub_scan_absorbs_bounded with (String.length s). Qed.

End Absorption.

(** ** The splice and the run *)

Section SpliceTheorems.
Import Py Gen Script Spec Disk.

(** C4 (amended): the splice step replaces every region that runs
    from an occurrence of the marker to the next occurrence of the
    marker followed by a newline, both included, scanning from left
    to right, with: marker, newline, blank line, the generated blob,
    marker, newline; this for a blob without backslash.  What
    precedes the first region is untouched, and so is what follows it
    when that holds fewer than two markers.  For the target
    "A\n# @@AUTOGEN@@\nOLD\n# @@AUTOGEN@@\nB\n" and the blob "NEW\n"
    the result is "A\n# @@AUTOGEN@@\n\nNEW\n# @@AUTOGEN@@\nB\n". *)
Theorem splice_replaces_every_region :
  (forall tc code pre mid post,
      has_backslash code = false ->
      occurrences marker pre = 0 ->
      occurrences (marker ++ nl) mid = 0 ->
      exists rest,
        splice tc code post = Ok rest
        /\ splice tc code (pre ++ marker ++ mid ++ marker ++ nl ++ post)
           = Ok (pre ++ marker ++ nl ++ nl ++ code ++ marker ++ nl ++ rest)
        /\ (occurrences marker post < 2 -> rest = post))
  /\ (forall tc,
         splice tc ("NEW" ++ nl)
                ("A" ++ nl ++ marker ++ nl ++ "OLD" ++ nl
                     ++ marker ++ nl ++ "B" ++ nl)
         = Ok ("A" ++ nl ++ marker ++ nl ++ nl ++ "NEW" ++ nl
                   ++ marker ++ nl ++ "B" ++ nl)).
Proof.
  split.
  - intros tc code pre mid post Hb Hp Hm.
    exists (sub_scan (fun _ => marker ++ (nl ++ nl ++ code) ++ closing) 0 post).
    split; [now apply splice_literal|]. split.
    + rewrite (splice_literal tc code _ Hb). f_equal.
      change (marker ++ nl ++ post) with (closing ++ post).
      rewrite (sub_scan_region _ pre mid post Hp Hm).
      now rewrite !append_assoc.
    + intros Hpost. now apply sub_scan_few_markers.
  - intros tc. reflexivity.
Qed.

Lemma splice_replaces_every_region_witness :
  has_backslash ("NEW" ++ nl) = false
  /\ occurrences marker ("A" ++ nl) = 0
  /\ occurrences (marker ++ nl) (nl ++ "OLD" ++ nl) = 0
  /\ splice (fun _ => None) ("NEW" ++ nl)
            (("A" ++ nl) ++ marker ++ (nl ++ "OLD" ++ nl)
               ++ marker ++ nl ++ "B" ++ nl)
     = Ok ("A" ++ nl ++ marker ++ nl ++ nl ++ "NEW" ++ nl
               ++ marker ++ nl ++ "B" ++ nl).
Proof.
  split; [reflexivity|]. split; [reflexivity|]. split; [reflexivity|].
  destruct (proj1 splice_replaces_every_region (fun _ => None)
              ("NEW" ++ nl) ("A" ++ nl) (nl ++ "OLD" ++ nl) ("B" ++ nl)
              eq_refl eq_refl eq_refl) as (rest & _ & E & R).
  rewrite E, R; [reflexivity | vm_compute; lia].
Defined.

(** C4 as first stated fails: the text after the first region is not
    left untouched when it holds a second pair of markers. *)
Lemma splice_reaches_later_regions :
  occurrences marker ("A" ++ nl) = 0
  /\ occurrences marker (nl ++ "OLD" ++ nl) = 0
  /\ splice (fun _ => None) ("NEW" ++ nl)
            (("A" ++ nl) ++ marker ++ (nl ++ "OLD" ++ nl) ++ marker ++ nl
               ++ "B" ++ nl ++ marker ++ nl ++ "C" ++ nl ++ marker ++ nl)
     <> Ok (("A" ++ nl) ++ marker ++ nl ++ nl ++ ("NEW" ++ nl) ++ marker ++ nl
               ++ "B" ++ nl ++ marker ++ nl ++ "C" ++ nl ++ marker ++ nl).
Proof.
  split; [reflexivity|]. split; [reflexivity|]. vm_compute. discriminate.
Qed.

Lemma matches_nowhere_cons (c : ascii) (s : string) :
  matches_nowhere (String c s) = true ->
  match_at (String c s) = None /\ matches_nowhere s = true.
Proof.
  cbn [matches_nowhere]. destruct (match_at (String c s)); [discriminate|].
  now split.
Qed.

Lemma sub_scan_matches_nowhere (repl : string -> string) (s : string) :
  matches_nowhere s = true -> sub_scan repl 0 s = s.
Proof.
  induction s as [|c s IH]; intros H; [reflexivity|].
  apply matches_nowhere_cons in H. destruct H as [M H].
  rewrite (sub_scan_miss _ _ _ M), IH; trivial.
Qed.

Lemma few_markers_match_nowhere (s : string) :
  occurrences marker s < 2 -> matches_nowhere s = true.
Proof.
  induction s as [|c s IH]; intros H; [reflexivity|].
  cbn [matches_nowhere].
  destruct (match_at (String c s)) as [len|] eqn:M.
  - apply match_needs_two_markers in M. lia.
  - apply IH. rewrite occurrences_cons in H. lia.
Qed.

Lemma splice_matches_nowhere (tc : string -> option (string -> string))
      (code orig new : string) :
  matches_nowhere orig = true -> splice tc code orig = Ok new -> new = orig.
Proof.
  intros Ho. unfold splice, re_sub.
  destruct (has_backslash _).
  - destruct (tc _) as [expand|]; [|discriminate].
    intros E; injection E as <-. now apply sub_scan_matches_nowhere.
  - intros E; injection E as <-. now apply sub_scan_matches_nowhere.
Qed.

(** C5 (amended): take a file hooks.py whose text, as the script reads
    it, holds no marker pair (as is the case with fewer than two
    markers).  The substitution returns that text and no blob is
    inserted; the run stops before writing, or writes that text back,
    encoded as UTF-8.  The bytes of the file are as they were when
    they hold no carriage return and are the UTF-8 encoding of the
    text they are decoded to. *)
Theorem missing_markers_leave_file_unchanged
        (decode : list Byte.byte -> decoded)
        (tc : string -> option (string -> string))
        (hooks : list Hook) (content : list Byte.byte) (raw : string) :
  decode content = Text raw ->
  matches_nowhere (universal_newlines raw) = true ->
  (forall code new,
      splice tc code (universal_newlines raw) = Ok new ->
      new = universal_newlines raw)
  /\ (run decode tc hooks content
      = Some (Updated, utf8 (universal_newlines raw))
      \/ exists e, run decode tc hooks content = Some (Died e, content))
  /\ (count_char cr raw = 0 -> utf8 raw = content ->
      exists out, run decode tc hooks content = Some (out, content))
  /\ (forall s, occurrences marker s < 2 -> matches_nowhere s = true).
Proof.
  intros D Hm.
  assert (R : run decode tc hooks content
              = Some (Updated, utf8 (universal_newlines raw))
              \/ exists e, run decode tc hooks content = Some (Died e, content)).
  { unfold run. destruct (gen_code hooks) as [code|e]; [|right; now exists e].
    rewrite D.
    destruct (splice tc code (universal_newlines raw)) as [new|e] eqn:S;
      [|right; now exists e].
    left. now rewrite (splice_matches_nowhere tc code _ new Hm S). }
  split; [intros code new; now apply splice_matches_nowhere|].
  split; [exact R|]. split; [|exact few_markers_match_nowhere].
  intros Hc Hu. destruct R as [R|[e R]]; rewrite R.
  - exists Updated. now rewrite (universal_newlines_id raw Hc), Hu.
  - now exists (Died e).
Qed.

Lemma missing_markers_leave_file_unchanged_witness :
  latin1 (ascii_bytes ("import x" ++ nl ++ marker ++ nl ++ "y = 1" ++ nl))
  = Text ("import x" ++ nl ++ marker ++ nl ++ "y = 1" ++ nl)
  /\ matches_nowhere
       (universal_newlines ("import x" ++ nl ++ marker ++ nl ++ "y = 1" ++ nl))
     = true
  /\ exists out,
      run latin1 (fun _ => None) Script.hooks
          (ascii_bytes ("import x" ++ nl ++ marker ++ nl ++ "y = 1" ++ nl))
      = Some (out,
              ascii_bytes ("import x" ++ nl ++ marker ++ nl ++ "y = 1" ++ nl)).
Proof.
  split; [reflexivity|]. split; [reflexivity|].
  apply (proj1 (proj2 (proj2 (missing_markers_leave_file_unchanged
           latin1 (fun _ => None) Script.hooks
           (ascii_bytes ("import x" ++ nl ++ marker ++ nl ++ "y = 1" ++ nl))
           ("import x" ++ nl ++ marker ++ nl ++ "y = 1" ++ nl)
           eq_refl eq_refl)))); reflexivity.
Defined.

(** C5 as first stated fails: a file without markers whose lines end
    in "\r\n" is read with "\n" line ends and written back so. *)
Lemma crlf_file_is_rewritten :
  matches_nowhere
    (universal_newlines ("a = 1" ++ String cr nl ++ "b = 2" ++ String cr nl))
  = true
  /\ occurrences marker ("a = 1" ++ String cr nl ++ "b = 2" ++ String cr nl)
     = 0
  /\ run latin1 (fun _ => None) Script.hooks
         (ascii_bytes ("a = 1" ++ String cr nl ++ "b = 2" ++ String cr nl))
     = Some (Updated, ascii_bytes ("a = 1" ++ nl ++ "b = 2" ++ nl))
  /\ ascii_bytes ("a = 1" ++ nl ++ "b = 2" ++ nl)
     <> ascii_bytes ("a = 1" ++ String cr nl ++ "b = 2" ++ String cr nl).
Proof.
  split; [reflexivity|]. split; [reflexivity|].
  split; [vm_compute; reflexivity|].
  vm_compute. discriminate.
Qed.

(** C7 (amended): take a declaration list whose generated blob holds
    no backslash and, read back with "\r\n" and "\r" as "\n", no
    marker followed by a newline; and a file hooks.py such that the
    codec of the locale decodes what the run writes to the text the
    run encoded.  Then a second run ends as the first and leaves the
    bytes of the file as the first left them.  On the text alone: for
    a blob that holds neither a backslash nor a marker followed by a
    newline, splicing into the spliced text gives the spliced text. *)
Theorem generation_idempotent
        (decode : list Byte.byte -> decoded)
        (tc : string -> option (string -> string))
        (hooks : list Hook) (content : list Byte.byte) :
  (forall code, gen_code hooks = Ok code ->
                has_backslash code = false
                /\ occurrences closing (universal_newlines code) = 0) ->
  (forall raw code new,
      decode content = Text raw -> gen_code hooks = Ok code ->
      splice tc code (universal_newlines raw) = Ok new ->
      decode (utf8 new) = Text new) ->
  (forall out content1,
      run decode tc hooks content = Some (out, content1) ->
      run decode tc hooks content1 = Some (out, content1))
  /\ (forall code orig new,
         has_backslash code = false -> occurrences closing code = 0 ->
         splice tc code orig = Ok new -> splice tc code new = Ok new).
Proof.
  intros Hcode Hcodec. split.
  - intros out content1. unfold run.
    destruct (gen_code hooks) as [code|e] eqn:G;
      [|intros E; injection E as <- <-; reflexivity].
    destruct (Hcode code eq_refl) as [Hb Hc].
    destruct (decode content) as [raw| |] eqn:D; [| |discriminate].
    + destruct (splice tc code (universal_newlines raw)) as [new|e] eqn:S.
      * intros E; injection E as <- <-.
        rewrite (Hcodec raw code new eq_refl eq_refl S).
        assert (S2 : splice tc code (universal_newlines new) = Ok new).
        { rewrite (splice_literal tc code _ Hb) in S.
          rewrite (splice_literal tc code _ Hb).
          assert (N : new = sub_scan
                              (fun _ => marker ++ (nl ++ nl ++ code) ++ closing)
                              0 (universal_newlines raw)) by congruence.
          rewrite N. f_equal.
          rewrite (universal_newlines_scan code _
                     (universal_newlines_no_cr raw)).
          now rewrite (sub_scan_absorbs (nl ++ nl ++ universal_newlines code)
                         Hc). }
        now rewrite S2.
      * intros E; injection E as <- <-. now rewrite D, S.
    + intros E; injection E as <- <-. now rewrite D.
  - intros code orig new Hb Hc. rewrite !(splice_literal tc code _ Hb).
    intros E; injection E as <-.
    now rewrite (sub_scan_idempotent (nl ++ nl ++ code) Hc).
Qed.

Lemma generation_idempotent_witness :
  exists content1,
    run latin1 (fun _ => None) Script.hooks
        (ascii_bytes ("A" ++ nl ++ marker ++ nl ++ "OLD" ++ nl
                          ++ marker ++ nl ++ "B" ++ nl))
    = Some (Updated, content1)
    /\ run latin1 (fun _ => None) Script.hooks content1
       = Some (Updated, content1).
Proof.
  destruct (run latin1 (fun _ => None) Script.hooks
                (ascii_bytes ("A" ++ nl ++ marker ++ nl ++ "OLD" ++ nl
                                  ++ marker ++ nl ++ "B" ++ nl)))
    as [[out content1]|] eqn:R; [|vm_compute in R; discriminate].
  assert (O : out = Updated) by (vm_compute in R; congruence).
  subst out. exists content1. split; [reflexivity|].
  refine (proj1 (generation_idempotent latin1 (fun _ => None) Script.hooks
                   (ascii_bytes ("A" ++ nl ++ marker ++ nl ++ "OLD" ++ nl
                                     ++ marker ++ nl ++ "B" ++ nl)) _ _)
                _ _ R).
  - intros code E. vm_compute in E. injection E as <-.
    split; vm_compute; reflexivity.
  - intros raw code new D G S.
    vm_compute in D. injection D as <-.
    vm_compute in G. injection G as <-.
    vm_compute in S. injection S as <-.
    vm_compute. reflexivity.
Defined.

(** C7 as first stated fails: a declaration whose legacy alias holds
    a marker line puts a closing marker inside the blob, and each run
    then grows the file; an alias that holds a marker and a carriage
    return does so from the second run on, which reads the carriage
    return as a newline. *)
Lemma marker_in_blob_breaks_idempotence :
  (exists content1 content2,
      run latin1 (fun _ => None)
          [mkHook "x" EmptyString None (Some (marker ++ nl))]
          (ascii_bytes (marker ++ nl ++ marker ++ nl))
      = Some (Updated, content1)
      /\ run latin1 (fun _ => None)
             [mkHook "x" EmptyString None (Some (marker ++ nl))] content1
         = Some (Updated, content2)
      /\ content1 <> content2)
  /\ (exists content1 content2,
         run latin1 (fun _ => None)
             [mkHook "x" EmptyString None (Some (marker ++ String cr EmptyString))]
             (ascii_bytes (marker ++ nl ++ marker ++ nl))
         = Some (Updated, content1)
         /\ run latin1 (fun _ => None)
                [mkHook "x" EmptyString None
                        (Some (marker ++ String cr EmptyString))] content1
            = Some (Updated, content2)
         /\ content1 <> content2).
Proof.
  split; (eexists; eexists; split; [vm_compute; reflexivity|];
          split; [vm_compute; reflexivity|]; discriminate).
Qed.

End SpliceTheorems.

(** ** The emitted dispatch functions *)

(** *** Their text *)

Section Printing.
Import Py Gen Emitted.







End Printing.

(** *** Their parameters *)

Section Parameters.
Import Py Gen Emitted.








End Parameters.

(** *** Names and their values *)

Section Reading.
Import Py Gen Emitted Interp Course.

Context {Obj U E : Type}.
Variables (name_error unbound_local_error : E).

Local Abbreviation read := (Interp.read name_error unbound_local_error).
Local Abbreviation read_list := (Interp.read_list name_error unbound_local_error).
Local Abbreviation eval_atoms :=
  (Interp.eval_atoms name_error unbound_local_error).









End Reading.

(** *** Their runs *)

Section Removal.
Import Interp.
Local Open Scope list_scope.

Context {Obj : Type}.
Variable obj_eq_dec : forall a b : Obj, {a = b} + {a <> b}.

Local Abbreviation remove_first := (Interp.remove_first obj_eq_dec).




End Removal.

Section Dispatch.
Import Py Gen Emitted Interp Course.
Local Open Scope list_scope.

Variable Obj : Type.
Variable obj_eq_dec : forall a b : Obj, {a = b} + {a <> b}.
Variables (U E : Type).
Variables (type_error value_error name_error unbound_local_error : E).
Variable invoke : val Obj -> list (val Obj) -> store Obj U
                  -> outcome E (val Obj) * store Obj U.

Local Abbreviation for_try :=
  (Interp.for_try obj_eq_dec value_error name_error unbound_local_error invoke).
Local Abbreviation exec_expr :=
  (Interp.exec_expr obj_eq_dec value_error name_error unbound_local_error
                    invoke).
Local Abbreviation exec_body :=
  (Interp.exec_body obj_eq_dec value_error name_error unbound_local_error
                    invoke).
Local Abbreviation call_def :=
  (Interp.call_def obj_eq_dec type_error value_error name_error
                   unbound_local_error invoke).




Section Legacy.

Variables (h : Hook) (runner : string) (locals names : list string).
Hypothesis parameters_local :
  forall x, In x names -> mem_string x locals = true.



End Legacy.

(** *** The hook variant *)

Section Hook.

Variables (h : Hook) (names : list string) (args : list (val Obj)).
Hypothesis text_accepted : accepted (hook_def h names) = true.
Hypothesis header : params_of (cb_args h) = Some names.
Hypothesis list_not_hidden : ~ In (full_name h) names.
Hypothesis arity : List.length args = List.length names.

Let locals : list string :=
  names ++ flat_map assigned (d_body (hook_def h names)).
Let body : list simple := [ Expr (Call "hook" (map Name names)) ].
Let handler : list simple := evict (full_name h) "hook".


















End Hook.

(** *** The filter variant *)

Section Filter.

Variables (h : Hook) (arg0 : string) (more : list string).
Variables (v0 : val Obj) (others : list (val Obj)).

Let names : list string := arg0 :: more.

Hypothesis text_accepted : accepted (filter_def h names arg0) = true.
Hypothesis header : params_of (cb_args h) = Some names.
Hypothesis list_not_hidden : ~ In (full_name h) names.
Hypothesis loop_variable_free : ~ In "filter" names.
Hypothesis arity : List.length (v0 :: others) = List.length names.

Let locals : list string :=
  names ++ flat_map assigned (d_body (filter_def h names arg0)).
Let body : list simple := [ Assign arg0 (Call "filter" (map Name names)) ].
Let handler : list simple := evict (full_name h) "filter".




















End Filter.

(** *** The claims on the dispatch functions *)







End Dispatch.

(** *** Runs on the runtime of [Demo] *)

Section DispatchRuns.
Import Py Gen Emitted Interp Course.
Local Open Scope list_scope.

Local Abbreviation o := (@VObj nat).

Local Abbreviation leech :=
  (mkHook "leech" "card: Card" None (Some "leech")).
Local Abbreviation mod_schema :=
  (mkHook "mod_schema" "proceed: bool" (Some "bool") None).








End DispatchRuns.

(** * Further properties of the code *)

(** ** The blob as a whole *)

Section Blob.
Import Py Gen Script Spec Shape.

Lemma emit_all_raise_inv (emit : Hook -> result string) (l : list Hook) :
  forall code e,
    emit_all emit l code = Raise e -> exists h, In h l /\ emit h = Raise e.
Proof.
  induction l as [|x l IH]; intros code e; simpl; [discriminate|].
  destruct (emit x) as [c|e'] eqn:Ex; cbn [bind].
  - intros H. destruct (IH _ _ H) as (h & Hin & He). exists h. now split; [right|].
  - intros H; injection H as <-. exists x. now split; [left|].
Qed.

Lemma emit_all_texts (emit : Hook -> result string) (l : list Hook) :
  forall acc code,
    emit_all emit l acc = Ok code ->
    exists texts,
      Forall2 (fun h t => emit h = Ok t) l texts
      /\ code = acc ++ join EmptyString texts.
Proof.
  induction l as [|x l IH]; intros acc code; simpl.
  - intros H; injection H as <-. exists []. split; [constructor|].
    now rewrite append_nil_r.
  - destruct (emit x) as [c|e] eqn:Ex; cbn [bind]; [|discriminate].
    intros H. destruct (IH _ _ H) as (texts & Hf & ->).
    exists (c :: texts). split; [now constructor|].
    rewrite append_assoc. f_equal.
    destruct texts; cbn [join]; [now rewrite !append_nil_r | reflexivity].
Qed.

Lemma emit_all_succeeds (emit : Hook -> result string) (l : list Hook) :
  (forall h, In h l -> exists t, emit h = Ok t) ->
  forall acc, exists code, emit_all emit l acc = Ok code.
Proof.
  induction l as [|x l IH]; intros H acc; simpl; [now exists acc|].
  destruct (H x (or_introl eq_refl)) as [t ->]. cbn [bind].
  apply IH. intros h Hh. apply H. now right.
Qed.

Lemma emit_all_ok_each (emit : Hook -> result string) (l : list Hook) :
  forall acc code,
    emit_all emit l acc = Ok code ->
    forall h, In h l -> exists t, emit h = Ok t.
Proof.
  induction l as [|x l IH]; intros acc code H h []; simpl in H.
  - subst x. destruct (emit h) as [t|e]; [now exists t | discriminate].
  - destruct (emit x) as [t|e]; cbn [bind] in H; [|discriminate].
    now apply (IH _ _ H).
Qed.

Lemma list_code_ok_iff (h : Hook) :
  (exists t, list_code h = Ok t) <-> exists names, arg_names h = Ok names.
Proof.
  unfold list_code. pose proof (callable_ok_iff_arg_names_ok h) as A.
  destruct (callable h) as [c|e], (arg_names h) as [names|e'];
    try discriminate; cbn [bind]; split; intros [x Hx]; try discriminate.
  - now exists names.
  - now eexists.
Qed.

Lemma arg_names_err (h : Hook) (e : exn) :
  arg_names h = Raise e -> e = ValueError.
Proof. unfold arg_names. apply arg_names_loop_err. Qed.

(** What the dispatch emitter of a declaration makes of its names. *)
Lemma fire_code_cases (h : Hook) :
  match arg_names h with
  | Raise _ => fire_code h = Raise ValueError
  | Ok [] =>
      match return_type h with
      | Some _ => fire_code h = Raise IndexError
      | None => exists t, fire_code h = Ok t
      end
  | Ok (_ :: _) => exists t, fire_code h = Ok t
  end.
Proof.
  unfold fire_code, filter_fire_code, hook_fire_code.
  destruct (arg_names h) as [[|n ns]|e] eqn:A.
  - destruct (return_type h); cbn [bind index0]; [reflexivity | now eexists].
  - destruct (return_type h); cbn [bind index0]; now eexists.
  - rewrite (arg_names_err _ _ A). now destruct (return_type h).
Qed.

Lemma fire_code_ok_iff (h : Hook) :
  (exists t, fire_code h = Ok t) <-> generable h.
Proof.
  pose proof (fire_code_cases h) as C. unfold generable.
  destruct (arg_names h) as [[|n ns]|e].
  - destruct (return_type h) as [r|].
    + rewrite C. split.
      * intros [t Ht]; discriminate.
      * intros (names & Hn & Hne). injection Hn as <-.
        exfalso. now apply Hne.
    + split; [|now intros _].
      intros _. exists []. split; [reflexivity | congruence].
  - split; [|now intros _].
    intros _. exists (n :: ns). split; [reflexivity | discriminate].
  - rewrite C. split.
    + intros [t Ht]; discriminate.
    + intros (names & Hn & _); discriminate.
Qed.

Lemma generable_parses (h : Hook) :
  generable h -> exists names, arg_names h = Ok names.
Proof. intros (names & H & _). now exists names. Qed.

(** X1: the blob is generated exactly when every declaration can be
    emitted: its signature parses and, for a filter, holds an argument.
    Otherwise the script stops with ValueError, exactly when some
    signature does not parse, or else with IndexError, when the
    signatures parse and some filter has no argument; the template
    error of re.sub cannot arise at this stage. *)
Theorem gen_code_outcome (hooks : list Hook) :
  ((exists code, gen_code hooks = Ok code) <-> Forall generable hooks)
  /\ (gen_code hooks = Raise ValueError
      <-> exists h, In h hooks /\ arg_names h = Raise ValueError)
  /\ (gen_code hooks = Raise IndexError
      <-> (forall h, In h hooks -> exists names, arg_names h = Ok names)
          /\ exists h, In h hooks /\ return_type h <> None
                       /\ arg_names h = Ok [])
  /\ gen_code hooks <> Raise ReError.
Proof.
  assert (Hlists : (forall h, In h hooks -> exists names, arg_names h = Ok names)
                   -> exists code,
                     emit_all list_code (sort_by_name hooks) EmptyString
                     = Ok code).
  { intros H. apply emit_all_succeeds. intros h Hh.
    apply list_code_ok_iff, H. now apply In_sort_by_name. }
  assert (Hval : (exists h, In h hooks /\ arg_names h = Raise ValueError)
                 -> gen_code hooks = Raise ValueError).
  { intros (h & Hin & Ha). unfold gen_code.
    assert (Hl : list_code h = Raise ValueError).
    { unfold list_code.
      now rewrite (callable_raises_with_arg_names h Ha). }
    apply In_sort_by_name in Hin.
    destruct (emit_all_raises list_code h _ Hl _ EmptyString Hin) as [e He].
    rewrite He. cbn [bind].
    now rewrite (emit_all_err list_code ValueError list_code_err _ _ _ He). }
  assert (Hcases : forall e, gen_code hooks = Raise e ->
                     (e = ValueError
                      /\ exists h, In h hooks /\ arg_names h = Raise ValueError)
                     \/ (e = IndexError
                         /\ (forall h, In h hooks ->
                                       exists names, arg_names h = Ok names)
                         /\ exists h, In h hooks /\ return_type h <> None
                                      /\ arg_names h = Ok [])).
  { intros e. unfold gen_code.
    destruct (emit_all list_code (sort_by_name hooks) EmptyString)
      as [code|e1] eqn:L; cbn [bind].
    - intros F. right.
      assert (Hall : forall h, In h hooks ->
                               exists names, arg_names h = Ok names).
      { intros h Hh. apply list_code_ok_iff.
        apply (emit_all_ok_each _ _ _ _ L). now apply In_sort_by_name. }
      destruct (emit_all_raise_inv _ _ _ _ F) as (h & Hin & Hf).
      apply (proj1 (In_sort_by_name h hooks)) in Hin.
      pose proof (fire_code_cases h) as C.
      destruct (Hall h Hin) as [names Hn]. rewrite Hn in C.
      destruct names as [|n ns].
      + destruct (return_type h) as [r|] eqn:R.
        * rewrite C in Hf. injection Hf as <-.
          split; [reflexivity|]. split; [exact Hall|].
          exists h. rewrite R. repeat split; trivial. discriminate.
        * destruct C as [t Ht]. congruence.
      + destruct C as [t Ht]. congruence.
    - intros F; injection F as <-. left.
      destruct (emit_all_raise_inv _ _ _ _ L) as (h & Hin & Hl).
      rewrite (list_code_err _ _ Hl) in *.
      split; [reflexivity|]. exists h.
      split; [now apply (proj1 (In_sort_by_name h hooks))|].
      apply arg_names_not_ok_raises. intros names Hn.
      assert (X : exists t, list_code h = Ok t)
        by (apply list_code_ok_iff; now exists names).
      destruct X as [t Ht]. congruence. }
  split; [|split; [|split]].
  - split.
    + intros [code G]. apply Forall_forall. intros h Hh.
      apply fire_code_ok_iff. unfold gen_code in G.
      destruct (emit_all list_code (sort_by_name hooks) EmptyString)
        as [c|e]; cbn [bind] in G; [|discriminate].
      apply (emit_all_ok_each _ _ _ _ G). now apply In_sort_by_name.
    + intros F. rewrite Forall_forall in F.
      destruct Hlists as [c Hc].
      { intros h Hh. now apply generable_parses, F. }
      unfold gen_code. rewrite Hc. cbn [bind].
      apply emit_all_succeeds. intros h Hh.
      apply fire_code_ok_iff, F. now apply In_sort_by_name.
  - split; [|exact Hval].
    intros G. destruct (Hcases _ G) as [[_ H]|[H _]]; [exact H|discriminate].
  - split.
    + intros G. destruct (Hcases _ G) as [[H _]|[_ H]]; [discriminate|exact H].
    + intros (Hall & h & Hin & Hr & Hn).
      destruct (gen_code hooks) as [code|e] eqn:G.
      * exfalso.
        assert (F : Forall generable hooks).
        { unfold gen_code in G.
          destruct (emit_all list_code (sort_by_name hooks) EmptyString)
            as [c|e]; cbn [bind] in G; [|discriminate].
          apply Forall_forall. intros x Hx. apply fire_code_ok_iff.
          apply (emit_all_ok_each _ _ _ _ G). now apply In_sort_by_name. }
        rewrite Forall_forall in F.
        destruct (F h Hin) as (names & Hn' & Hne).
        rewrite Hn in Hn'. injection Hn' as <-. now apply Hne.
      * destruct (Hcases _ eq_refl) as [[-> (x & Hx & Ha)]|[-> _]];
          [|reflexivity].
        destruct (Hall x Hx) as [names Hn']. congruence.
  - intros G. destruct (Hcases _ G) as [[H _]|[H _]]; discriminate.
Qed.

(** X2: a generated blob is laid out as the list declarations of the
    declarations taken in name order, an empty separator of two
    newlines, and their dispatch functions in the same order, one
    fragment of each kind per declaration. *)
Theorem blob_layout (hooks : list Hook) (code : string) :
  gen_code hooks = Ok code ->
  exists lists fires,
    Forall2 (fun h t => list_code h = Ok t) (sort_by_name hooks) lists
    /\ Forall2 (fun h t => fire_code h = Ok t) (sort_by_name hooks) fires
    /\ code = join EmptyString lists ++ nl ++ nl ++ join EmptyString fires.
Proof.
  unfold gen_code.
  destruct (emit_all list_code (sort_by_name hooks) EmptyString)
    as [c|e] eqn:L; cbn [bind]; [|discriminate].
  intros F.
  destruct (emit_all_texts _ _ _ _ L) as (lists & Hl & ->).
  destruct (emit_all_texts _ _ _ _ F) as (fires & Hf & ->).
  exists lists, fires. repeat split; trivial.
  cbn [append]. now rewrite !append_assoc.
Qed.

End Blob.

(** ** The order of emission and the generated identifiers *)

Section Emission.
Import Py Gen Script Spec Shape.

(** X3: the declarations are emitted in ascending order of name, each
    one once, and those that share a name in the order of the input
    list. *)
Theorem emission_order (hooks : list Hook) :
  StronglySorted name_le (sort_by_name hooks)
  /\ Permutation (sort_by_name hooks) hooks
  /\ forall k, named k (sort_by_name hooks) = named k hooks.
Proof.
  split; [apply sort_by_name_sorted|]. split; [apply sort_by_name_perm|].
  intros k. induction hooks as [|h hooks IH]; [reflexivity|].
  cbn [sort_by_name fold_right]. fold (sort_by_name hooks).
  rewrite named_insert_by_name. unfold named in *. cbn [filter].
  now rewrite IH.
Qed.

Lemma list_ascii_app (a b : string) :
  list_ascii_of_string (a ++ b)
  = (list_ascii_of_string a ++ list_ascii_of_string b)%list.
Proof. induction a as [|c a IH]; simpl; [reflexivity | now rewrite IH]. Qed.

Lemma list_ascii_inj (a b : string) :
  list_ascii_of_string a = list_ascii_of_string b -> a = b.
Proof.
  intros H. rewrite <- (string_of_list_ascii_of_string a).
  rewrite <- (string_of_list_ascii_of_string b). now rewrite H.
Qed.

Lemma append_inv_tail (a b s : string) : a ++ s = b ++ s -> a = b.
Proof.
  intros H. apply list_ascii_inj.
  apply (f_equal list_ascii_of_string) in H.
  rewrite !list_ascii_app in H. now apply app_inv_tail in H.
Qed.

Lemma hook_is_not_filter (a b : string) : a ++ "_hook" <> b ++ "_filter".
Proof.
  intros H. apply (f_equal list_ascii_of_string) in H.
  rewrite !list_ascii_app in H.
  apply (f_equal (@rev ascii)) in H. rewrite !rev_app_distr in H.
  discriminate.
Qed.

(** X4: the generated identifier tells name and kind apart: two
    declarations get the same [full_name] only when they have the same
    name and are of the same kind. *)
Theorem full_name_injective (h1 h2 : Hook) :
  full_name h1 = full_name h2 -> name h1 = name h2 /\ kind h1 = kind h2.
Proof.
  unfold full_name, kind.
  destruct (return_type h1), (return_type h2); intros H.
  - split; [now apply append_inv_tail in H | reflexivity].
  - symmetry in H. now apply hook_is_not_filter in H.
  - now apply hook_is_not_filter in H.
  - split; [now apply append_inv_tail in H | reflexivity].
Qed.

Lemma full_name_injective_witness :
  full_name (mkHook "leech" "card: Card" None (Some "leech"))
  = full_name (mkHook "leech" EmptyString None None)
  /\ kind (mkHook "leech" "card: Card" None (Some "leech"))
     = kind (mkHook "leech" EmptyString None None).
Proof.
  assert (H : full_name (mkHook "leech" "card: Card" None (Some "leech"))
              = full_name (mkHook "leech" EmptyString None None))
    by reflexivity.
  split; [exact H|].
  apply (full_name_injective _ _ H).
Defined.

End Emission.

(** ** The argument names *)

Section Names.
Import Py Gen Script Spec Shape.

Lemma split_sep_free (c : ascii) (s : string) :
  Forall (fun seg => count_char c seg = 0) (split c s).
Proof.
  induction s as [|d s IH]; cbn [split]; [now repeat constructor|].
  destruct (Ascii.eqb d c) eqn:E; [now constructor|].
  destruct (split c s) as [|seg segs]; [repeat constructor; simpl; now rewrite E|].
  inversion IH; subst. constructor; [|assumption].
  simpl. now rewrite E.
Qed.

Lemma split_count_le (c d : ascii) (s : string) :
  Forall (fun seg => count_char d seg <= count_char d s) (split c s).
Proof.
  induction s as [|x s IH]; cbn [split]; [now repeat constructor|].
  destruct (Ascii.eqb x c).
  - constructor; [simpl; lia|].
    eapply Forall_impl; [|exact IH]. intros seg H. simpl in *. lia.
  - destruct (split c s) as [|seg segs]; [repeat constructor; simpl; lia|].
    inversion IH; subst. constructor; [simpl in *; lia|].
    eapply Forall_impl; [|eassumption]. intros y Hy. simpl in *. lia.
Qed.

Lemma count_char_lstrip (c : ascii) (s : string) :
  count_char c (lstrip s) <= count_char c s.
Proof.
  induction s as [|d s IH]; simpl; [lia|].
  destruct (isspace d); simpl; lia.
Qed.

Lemma count_char_rstrip (c : ascii) (s : string) :
  count_char c (rstrip s) <= count_char c s.
Proof.
  induction s as [|d s IH]; simpl; [lia|].
  destruct (rstrip s) as [|x r].
  - destruct (isspace d); simpl in *; lia.
  - simpl in *. lia.
Qed.

Lemma count_char_strip (c : ascii) (s : string) :
  count_char c s = 0 -> count_char c (strip s) = 0.
Proof.
  intros H. unfold strip.
  pose proof (count_char_rstrip c (lstrip s)).
  pose proof (count_char_lstrip c s). lia.
Qed.

Lemma lstrip_start (s : string) : starts_with_space (lstrip s) = false.
Proof.
  induction s as [|d s IH]; simpl; [reflexivity|].
  destruct (isspace d) eqn:E; [exact IH | simpl; exact E].
Qed.

Lemma rstrip_start (s : string) :
  starts_with_space s = false -> starts_with_space (rstrip s) = false.
Proof.
  destruct s as [|d s]; simpl; [reflexivity|]. intros E.
  destruct (rstrip s); [rewrite E|]; simpl; trivial.
Qed.

Lemma rstrip_end (s : string) : ends_with_space (rstrip s) = false.
Proof.
  induction s as [|d s IH]; simpl; [reflexivity|].
  destruct (rstrip s) as [|x r].
  - destruct (isspace d) eqn:E; simpl; trivial.
  - exact IH.
Qed.

Lemma strip_clean (s : string) :
  count_char comma s = 0 -> count_char colon s = 0 -> clean_token (strip s).
Proof.
  intros Hc Hk. repeat split.
  - now apply count_char_strip.
  - now apply count_char_strip.
  - apply rstrip_start, lstrip_start.
  - apply rstrip_end.
Qed.

Lemma arg_names_loop_clean (segs : list string) :
  forall acc names,
    Forall (fun seg => count_char comma seg = 0) segs ->
    Forall clean_token acc ->
    arg_names_loop segs acc = Ok names ->
    Forall clean_token names.
Proof.
  induction segs as [|seg segs IH]; intros acc names Hs Ha; simpl.
  - intros H; injection H as <-. exact Ha.
  - inversion Hs as [|? ? Hseg Hs']; subst.
    destruct (truthy seg); simpl; [|now apply IH].
    pose proof (split_sep_free colon seg) as Hk.
    pose proof (split_count_le colon comma seg) as Hc.
    destruct (split colon seg) as [|a [|b [|c l]]]; simpl; try discriminate.
    apply IH; [assumption|].
    apply Forall_app. split; [assumption|]. constructor; [|constructor].
    inversion Hk; inversion Hc; subst.
    apply strip_clean; [lia | assumption].
Qed.

(** X5: the names [arg_names] returns are clean tokens, free of comma
    and colon and of white space at either end, and there is one per
    non-empty segment of callbackArgs. *)
Theorem arg_names_clean (h : Hook) (names : list string) :
  arg_names h = Ok names ->
  Forall clean_token names
  /\ List.length names
     = List.length (filter truthy (split comma (cb_args h))).
Proof.
  intros H. split.
  - apply (arg_names_loop_clean _ [] names (split_sep_free comma _)
             (Forall_nil _) H).
  - now rewrite (arg_names_loop_length _ _ _ H).
Qed.

Lemma arg_names_clean_witness :
  arg_names (mkHook "x" " a : int,,b:str" None None) = Ok ["a"; "b"]
  /\ Forall clean_token ["a"; "b"].
Proof.
  assert (H : arg_names (mkHook "x" " a : int,,b:str" None None)
              = Ok ["a"; "b"]) by reflexivity.
  split; [|exact (proj1 (arg_names_clean _ _ H))].
  reflexivity.
Defined.

End Names.

(** ** Signatures put together *)

Section Composition.
Import Py Gen Script Spec Shape.

Lemma split_sep_app (c : ascii) (a b : string) :
  split c (a ++ String c b) = (split c a ++ split c b)%list.
Proof.
  induction a as [|d a IH]; cbn [append split].
  - now rewrite Ascii.eqb_refl.
  - destruct (Ascii.eqb d c); [now rewrite IH|].
    rewrite IH. pose proof (split_not_nil c a) as N.
    now destruct (split c a).
Qed.

Lemma arg_names_loop_acc (segs : list string) :
  forall acc,
    arg_names_loop segs acc
    = (names <- arg_names_loop segs [] ;; Ok (acc ++ names)%list).
Proof.
  induction segs as [|seg segs IH]; intros acc; simpl.
  - now rewrite app_nil_r.
  - destruct (truthy seg); simpl; [|apply IH].
    destruct (unpack2 (split colon seg)) as [nt|e]; simpl; [|reflexivity].
    rewrite (IH (acc ++ _)%list), (IH [_]).
    destruct (arg_names_loop segs []); simpl; [|reflexivity].
    now rewrite <- app_assoc.
Qed.

Lemma arg_names_loop_app (l1 l2 : list string) :
  forall acc,
    arg_names_loop (l1 ++ l2) acc
    = (acc' <- arg_names_loop l1 acc ;; arg_names_loop l2 acc').
Proof.
  induction l1 as [|seg l1 IH]; intros acc; simpl; [reflexivity|].
  destruct (truthy seg); simpl; [|apply IH].
  destruct (unpack2 (split colon seg)); simpl; [apply IH | reflexivity].
Qed.

(** X6: the names of two signatures joined by a comma are the names of
    the first followed by those of the second, and the joined signature
    fails to parse as soon as one of the two does; so a comma in
    front, at the end or doubled changes nothing. *)
Theorem arg_names_comma (h : Hook) (a b : string) :
  arg_names (with_cb_args h (a ++ String comma b))
  = (names_a <- arg_names (with_cb_args h a) ;;
     names_b <- arg_names (with_cb_args h b) ;;
     Ok (names_a ++ names_b)%list)
  /\ arg_names (with_cb_args h (a ++ String comma EmptyString))
     = arg_names (with_cb_args h a)
  /\ arg_names (with_cb_args h (String comma a))
     = arg_names (with_cb_args h a).
Proof.
  assert (G : forall x y,
             arg_names (with_cb_args h (x ++ String comma y))
             = (names_a <- arg_names (with_cb_args h x) ;;
                names_b <- arg_names (with_cb_args h y) ;;
                Ok (names_a ++ names_b)%list)).
  { intros x y. unfold arg_names, with_cb_args. cbn [cb_args].
    rewrite split_sep_app, arg_names_loop_app.
    destruct (arg_names_loop (split comma x) []) as [na|e]; cbn [bind];
      [|reflexivity].
    apply arg_names_loop_acc. }
  split; [apply G|]. split.
  - rewrite G.
    change (arg_names (with_cb_args h EmptyString))
      with (@Ok (list string) []).
    destruct (arg_names (with_cb_args h a)); cbn [bind]; [|reflexivity].
    now rewrite app_nil_r.
  - change (String comma a) with (EmptyString ++ String comma a).
    rewrite G.
    change (arg_names (with_cb_args h EmptyString))
      with (@Ok (list string) []).
    cbn [bind]. now destruct (arg_names (with_cb_args h a)).
Qed.

End Composition.

(** ** A marker without its closing line *)

Section Unclosed.
Import Py Gen Script Spec Shape.

Lemma closing_absent (x : string) :
  occurrences closing x = 0 -> lazy_until closing x = None.
Proof.
  induction x as [|c x IH]; intros H; [reflexivity|].
  rewrite occurrences_cons in H.
  destruct (String.prefix closing (String c x)) eqn:P; [discriminate|].
  rewrite (lazy_until_miss _ _ _ P), IH; [reflexivity | lia].
Qed.

Lemma sub_scan_unclosed (repl : string -> string) (pre rest : string) :
  occurrences marker pre = 0 ->
  occurrences closing rest = 0 ->
  sub_scan repl 0 (pre ++ marker ++ rest) = pre ++ marker ++ rest.
Proof.
  intros Hp Hr. induction pre as [|c pre IH].
  - cbn [append].
    change (marker ++ rest) with (String "#" (" @@AUTOGEN@@" ++ rest)).
    rewrite sub_scan_miss.
    + f_equal. apply sub_scan_no_closing.
      change closing with (String "#" (" @@AUTOGEN@@" ++ nl)) in *.
      now rewrite (occurrences_skip_fresh "#" _ " @@AUTOGEN@@" rest eq_refl).
    + change (String "#" (" @@AUTOGEN@@" ++ rest)) with (marker ++ rest).
      unfold match_at. rewrite prefix_app, drop_app_length.
      change (marker ++ nl) with closing.
      now rewrite (closing_absent rest Hr).
  - change (String c pre ++ marker ++ rest)
      with (String c (pre ++ marker ++ rest)).
    rewrite sub_scan_miss.
    + rewrite occurrences_cons in Hp. rewrite IH by lia. reflexivity.
    + change (String c (pre ++ marker ++ rest))
        with (String c pre ++ marker ++ rest).
      apply match_at_before; [exact Hp | discriminate].
Qed.

(** X7: the pattern asks for a newline after the closing marker.  A
    text whose first marker is followed by no marker-and-newline is
    left as it is by the substitution, however many markers it holds:
    so with the closing marker as the last characters of the text, no
    newline behind it, nothing is spliced. *)
Theorem unclosed_region_is_kept
        (tc : string -> option (string -> string))
        (code pre rest new : string) :
  occurrences marker pre = 0 ->
  occurrences (marker ++ nl) rest = 0 ->
  splice tc code (pre ++ marker ++ rest) = Ok new ->
  new = pre ++ marker ++ rest.
Proof.
  intros Hp Hr. unfold splice, re_sub.
  destruct (has_backslash _).
  - destruct (tc _) as [expand|]; [|discriminate].
    intros E; injection E as <-. now apply sub_scan_unclosed.
  - intros E; injection E as <-. now apply sub_scan_unclosed.
Qed.

Lemma unclosed_region_is_kept_witness :
  occurrences marker ("A" ++ nl) = 0
  /\ occurrences (marker ++ nl) (nl ++ "OLD" ++ nl ++ marker) = 0
  /\ splice (fun _ => None) ("NEW" ++ nl)
            (("A" ++ nl) ++ marker ++ nl ++ "OLD" ++ nl ++ marker)
     = Ok (("A" ++ nl) ++ marker ++ nl ++ "OLD" ++ nl ++ marker).
Proof.
  split; [reflexivity|]. split; [reflexivity|].
  destruct (splice (fun _ => None) ("NEW" ++ nl)
                   (("A" ++ nl) ++ marker ++ nl ++ "OLD" ++ nl ++ marker))
    as [new|e] eqn:S; [|vm_compute in S; discriminate].
  f_equal.
  apply (unclosed_region_is_kept (fun _ => None) ("NEW" ++ nl)
           ("A" ++ nl) (nl ++ "OLD" ++ nl ++ marker) new eq_refl eq_refl S).
Defined.

End Unclosed.

Section BlobRuns.
Import Py Gen Script Spec Shape.

Lemma blob_layout_witness :
  exists code,
    gen_code Script.hooks = Ok code
    /\ exists lists fires,
        Forall2 (fun h t => list_code h = Ok t)
                (sort_by_name Script.hooks) lists
        /\ Forall2 (fun h t => fire_code h = Ok t)
                   (sort_by_name Script.hooks) fires
        /\ code = join EmptyString lists ++ nl ++ nl
                  ++ join EmptyString fires.
Proof.
  destruct (gen_code Script.hooks) as [code|e] eqn:G;
    [|vm_compute in G; discriminate].
  exists code. split; [reflexivity|].
  exact (blob_layout Script.hooks code G).
Defined.

End BlobRuns.

(** ** What lies in front of the first marker *)

Section Front.
Import Py Gen Script Spec Shape.

Lemma sub_scan_front (repl : string -> string) (pre rest : string) :
  occurrences marker pre = 0 ->
  sub_scan repl 0 (pre ++ marker ++ rest)
  = pre ++ sub_scan repl 0 (marker ++ rest).
Proof.
  intros Hp. induction pre as [|c pre IH]; [reflexivity|].
  change (String c pre ++ marker ++ rest)
    with (String c (pre ++ marker ++ rest)).
  rewrite sub_scan_miss.
  - rewrite occurrences_cons in Hp. rewrite IH by lia. reflexivity.
  - change (String c (pre ++ marker ++ rest))
      with (String c pre ++ marker ++ rest).
    apply match_at_before; [exact Hp | discriminate].
Qed.

(** X13: the substitution never alters the text in front of the first
    marker, whatever the blob is, one with backslashes that the
    template compiler expands included. *)
Theorem text_before_first_marker_is_kept
        (tc : string -> option (string -> string))
        (code pre rest new : string) :
  occurrences marker pre = 0 ->
  splice tc code (pre ++ marker ++ rest) = Ok new ->
  exists tail, new = pre ++ tail.
Proof.
  intros Hp. unfold splice, re_sub.
  destruct (has_backslash _).
  - destruct (tc _) as [expand|]; [|discriminate].
    intros E; injection E as E. subst new.
    eexists. now apply sub_scan_front.
  - intros E; injection E as E. subst new.
    eexists. now apply sub_scan_front.
Qed.

Lemma text_before_first_marker_is_kept_witness :
  occurrences marker ("A" ++ nl) = 0
  /\ splice (fun _ => Some (fun matched => "<" ++ matched ++ ">"))
            (String backslash "d")
            (("A" ++ nl) ++ marker ++ nl ++ "OLD" ++ nl ++ marker ++ nl ++ "B")
     = Ok ("A" ++ nl ++ "<" ++ marker ++ nl ++ "OLD" ++ nl ++ marker ++ nl
               ++ ">B")
  /\ exists tail,
      "A" ++ nl ++ "<" ++ marker ++ nl ++ "OLD" ++ nl ++ marker ++ nl ++ ">B"
      = ("A" ++ nl) ++ tail.
Proof.
  assert (H : splice (fun _ => Some (fun matched => "<" ++ matched ++ ">"))
                     (String backslash "d")
                     (("A" ++ nl) ++ marker ++ nl ++ "OLD" ++ nl
                        ++ marker ++ nl ++ "B")
              = Ok ("A" ++ nl ++ "<" ++ marker ++ nl ++ "OLD" ++ nl
                        ++ marker ++ nl ++ ">B")) by reflexivity.
  split; [reflexivity|]. split; [exact H|].
  exact (text_before_first_marker_is_kept _ _ ("A" ++ nl) _ _ eq_refl H).
Defined.

End Front.


(** ** A generation that fails *)

Section FailedGeneration.
Import Py Gen Script Spec Disk.




End FailedGeneration.
